(** * Sudoku by arc consistency and backtracking: a model of
      [Assignment2/starter/main.py] and the properties of its engine.

    The Python classes [Grid], [FirstAvailable], [MRV], [AC3] and
    [Backtracking] are embedded one module each.  A grid object is the value
    of its [_cells] attribute, a list of rows of domains, each domain a
    Python [str].  Functions that index the matrix can raise [IndexError];
    loops that are not bounded by the shape of their data take fuel.
    [Backtracking.search] allocates clones, so it runs over a store of grid
    objects addressed by location. *)

From Stdlib Require Import String Ascii Lia.
From stdpp Require Import base list.

Open Scope string_scope.
Open Scope list_scope.
Open Scope nat_scope.

(** ** Results of Python calls *)

Inductive exn : Type :=
| IndexError   (* list index out of range *)
| TypeError    (* subscripting or iterating None *)
| NoObject.    (* a location that holds no object; no Python program has one *)

Inductive result (A : Type) : Type :=
| Ret (a : A)
| Raise (e : exn)
| OutOfFuel.

Arguments Ret {A} a.
Arguments Raise {A} e.
Arguments OutOfFuel {A}.

#[global] Instance result_ret : MRet result := fun A a => Ret a.
#[global] Instance result_bind : MBind result := fun A B f m =>
  match m with
  | Ret a => f a
  | Raise e => Raise e
  | OutOfFuel => OutOfFuel
  end.

(** ** Python strings *)

Module Str.

(** [len(s)] *)
Definition len (s : string) : nat := String.length s.

(** One pass of [s.replace(old, new)] for a non-empty [old]: [skip] counts the
    characters of a match that are still to be dropped. *)
Fixpoint replace_from (old new : string) (skip : nat) (s : string) : string :=
  match s with
  | EmptyString => EmptyString
  | String c s' =>
      match skip with
      | S k => replace_from old new k s'
      | O =>
          if String.prefix old s
          then String.append new (replace_from old new (String.length old - 1) s')
          else String c (replace_from old new 0 s')
      end
  end.

(** With an empty [old], Python puts [new] around every character. *)
Fixpoint surround (new : string) (s : string) : string :=
  match s with
  | EmptyString => new
  | String c s' => String.append new (String c (surround new s'))
  end.

(** [s.replace(old, new)] *)
Definition replace (s old new : string) : string :=
  match old with
  | EmptyString => surround new s
  | String _ _ => replace_from old new 0 s
  end.

(** [sub in s] *)
Fixpoint contains (s sub : string) : bool :=
  String.prefix sub s ||
  match s with
  | EmptyString => false
  | String _ s' => contains s' sub
  end.

End Str.

(** ** Positions and ranges *)

Abbreviation pos := (nat * nat)%type.

(** [range(n)] and [range(a, a + n)] *)
Definition range (n : nat) : list nat := seq 0 n.
Definition range_from (a n : nat) : list nat := seq a n.

(** The index pairs visited by [for i in rows: for j in cols], in order. *)
Definition nested (rows cols : list nat) : list pos :=
  flat_map (fun i => map (fun j => (i, j)) cols) rows.

(** ** class Grid *)

Abbreviation Cells := (list (list string)).

Module Grid.

Definition _complete_domain : string := "123456789".
Definition _width : nat := 9.

(** [Grid()]: the fresh object has no rows. *)
Definition init : Cells := [].

Definition get_width (cells : Cells) : nat := _width.

(** [cells[i][j]] *)
Definition get (cells : Cells) (i j : nat) : result string :=
  match cells !! i with
  | None => Raise IndexError
  | Some row =>
      match row !! j with
      | None => Raise IndexError
      | Some d => Ret d
      end
  end.

(** [cells[i][j] = d] *)
Definition set (cells : Cells) (i j : nat) (d : string) : result Cells :=
  match cells !! i with
  | None => Raise IndexError
  | Some row =>
      if decide (j < List.length row)
      then Ret (<[i := <[j := d]> row]> cells)
      else Raise IndexError
  end.

(** [copy]: the new matrix, every row copied. *)
Definition copy (cells : Cells) : Cells := map (fun row => row) cells.

Fixpoint read_file_loop (string_puzzle : string) (i : nat) (row : list string)
    (cells : Cells) : Cells :=
  match string_puzzle with
  | EmptyString => cells
  | String p rest =>
      let row :=
        if Ascii.eqb p "."%char then row ++ [_complete_domain]
        else row ++ [String p EmptyString] in
      let i := i + 1 in
      if i mod _width =? 0
      then read_file_loop rest i [] (cells ++ [row])
      else read_file_loop rest i row cells
  end.

Definition read_file (cells : Cells) (string_puzzle : string) : Cells :=
  read_file_loop string_puzzle 0 [] cells.

Fixpoint is_solved_loop (cells : Cells) (ps : list pos) : result bool :=
  match ps with
  | [] => Ret true
  | (i, j) :: ps' =>
      d ← get cells i j;
      if negb (Str.len d =? 1) then Ret false
      else is_solved_loop cells ps'
  end.

Definition is_solved (cells : Cells) : result bool :=
  is_solved_loop cells
    (nested (range (get_width cells)) (range (get_width cells))).






(** The sum of [f] over all domains; the loops below are bounded by such sums. *)
Definition total (f : string -> nat) (cells : Cells) : nat :=
  sum_list (map (fun row => sum_list (map f row)) cells).

End Grid.

(** ** Variable selection *)

(** What [select_variable] hands back: Python's [None] or a tuple. *)
Inductive selection : Type :=
| PyNone
| PyTuple (i j : nat).

Module FirstAvailable.

Fixpoint select_variable_loop (cells : Cells) (ps : list pos) : result selection :=
  match ps with
  | [] => Ret PyNone
  | (i, j) :: ps' =>
      d ← Grid.get cells i j;
      if 1 <? Str.len d then Ret (PyTuple i j)
      else select_variable_loop cells ps'
  end.

Definition select_variable (cells : Cells) : result selection :=
  select_variable_loop cells
    (nested (range (Grid.get_width cells)) (range (Grid.get_width cells))).

End FirstAvailable.

Module MRV.

Fixpoint select_variable_loop (cells : Cells) (ps : list pos)
    (current_lowest : pos) (smallest_domain : nat) : result selection :=
  match ps with
  | [] => Ret (PyTuple current_lowest.1 current_lowest.2)
  | (i, j) :: ps' =>
      d ← Grid.get cells i j;
      if 1 <? Str.len d then
        if Str.len d <? smallest_domain
        then select_variable_loop cells ps' (i, j) (Str.len d)
        else select_variable_loop cells ps' current_lowest smallest_domain
      else select_variable_loop cells ps' current_lowest smallest_domain
  end.

Definition select_variable (cells : Cells) : result selection :=
  select_variable_loop cells
    (nested (range (Grid.get_width cells)) (range (Grid.get_width cells)))
    (10, 10) 10.

End MRV.

(** The two subclasses of [VarSelector]. *)
Inductive VarSelector : Type :=
| FirstAvailable
| MRV.

Definition select_variable (var_selector : VarSelector) (cells : Cells)
    : result selection :=
  match var_selector with
  | FirstAvailable => FirstAvailable.select_variable cells
  | MRV => MRV.select_variable cells
  end.

(** ** class AC3 *)

Module AC3.

(** The statements the three [remove_domain_*] loops share: prune the domain
    of [(i, j)] by the domain of [(row, column)].  [None] is the early
    [return None, True]. *)
Definition prune (cells : Cells) (row column i j : nat)
    (variables_assigned : list pos) : result (option (Cells * list pos)) :=
  old ← Grid.get cells i j;
  own ← Grid.get cells row column;
  let new_domain := Str.replace old own "" in
  if Str.len new_domain =? 0 then Ret None
  else
    let variables_assigned :=
      if (Str.len new_domain =? 1) && (1 <? Str.len old)
      then variables_assigned ++ [(i, j)]
      else variables_assigned in
    cells ← Grid.set cells i j new_domain;
    Ret (Some (cells, variables_assigned)).

(** The pair a [remove_domain_*] method returns, next to the grid it leaves. *)
Abbreviation removal := (Cells * (option (list pos) * bool))%type.

Fixpoint remove_domain_row_loop (cells : Cells) (row column : nat)
    (js : list nat) (variables_assigned : list pos) : result removal :=
  match js with
  | [] => Ret (cells, (Some variables_assigned, false))
  | j :: js' =>
      if negb (j =? column) then
        r ← prune cells row column row j variables_assigned;
        match r with
        | None => Ret (cells, (None, true))
        | Some (cells, variables_assigned) =>
            remove_domain_row_loop cells row column js' variables_assigned
        end
      else remove_domain_row_loop cells row column js' variables_assigned
  end.

Definition remove_domain_row (cells : Cells) (row column : nat) : result removal :=
  remove_domain_row_loop cells row column (range (Grid.get_width cells)) [].

Fixpoint remove_domain_column_loop (cells : Cells) (row column : nat)
    (js : list nat) (variables_assigned : list pos) : result removal :=
  match js with
  | [] => Ret (cells, (Some variables_assigned, false))
  | j :: js' =>
      if negb (j =? row) then
        r ← prune cells row column j column variables_assigned;
        match r with
        | None => Ret (cells, (None, true))
        | Some (cells, variables_assigned) =>
            remove_domain_column_loop cells row column js' variables_assigned
        end
      else remove_domain_column_loop cells row column js' variables_assigned
  end.

Definition remove_domain_column (cells : Cells) (row column : nat) : result removal :=
  remove_domain_column_loop cells row column (range (Grid.get_width cells)) [].

Fixpoint remove_domain_unit_loop (cells : Cells) (row column : nat)
    (ps : list pos) (variables_assigned : list pos) : result removal :=
  match ps with
  | [] => Ret (cells, (Some variables_assigned, false))
  | (i, j) :: ps' =>
      if (i =? row) && (j =? column)
      then remove_domain_unit_loop cells row column ps' variables_assigned
      else
        r ← prune cells row column i j variables_assigned;
        match r with
        | None => Ret (cells, (None, true))
        | Some (cells, variables_assigned) =>
            remove_domain_unit_loop cells row column ps' variables_assigned
        end
  end.

Definition remove_domain_unit (cells : Cells) (row column : nat) : result removal :=
  let row_init := (row / 3) * 3 in
  let column_init := (column / 3) * 3 in
  remove_domain_unit_loop cells row column
    (nested (range_from row_init 3) (range_from column_init 3)) [].

(** [Q.pop()]: the last element and the rest. *)
Definition pop (Q : list pos) : option (pos * list pos) :=
  match rev Q with
  | [] => None
  | var :: rest => Some (var, rev rest)
  end.

(** [for i in variables: Q.append(i)] *)
Definition append_all (Q : list pos) (variables : option (list pos))
    : result (list pos) :=
  match variables with
  | None => Raise TypeError
  | Some l => Ret (Q ++ l)
  end.

(** The [while Q] loop; [0] and [1] are the integers the method returns. *)
Fixpoint consistency_loop (fuel : nat) (cells : Cells) (Q : list pos)
    : result (Cells * nat) :=
  match pop Q with
  | None => Ret (cells, 1)
  | Some (var, Q) =>
      match fuel with
      | O => OutOfFuel
      | S fuel =>
          '(cells, (var_assigned_row, row_failure)) ←
            remove_domain_row cells var.1 var.2;
          '(cells, (var_assigned_column, column_failure)) ←
            remove_domain_column cells var.1 var.2;
          '(cells, (var_assigned_unit, unit_failure)) ←
            remove_domain_unit cells var.1 var.2;
          if row_failure || column_failure || unit_failure
          then Ret (cells, 0)
          else
            Q ← append_all Q var_assigned_row;
            Q ← append_all Q var_assigned_column;
            Q ← append_all Q var_assigned_unit;
            consistency_loop fuel cells Q
      end
  end.

(** The number of domains longer than one symbol. *)
Definition unassigned (cells : Cells) : nat :=
  Grid.total (fun d => if 1 <? Str.len d then 1 else 0) cells.

(** Every pass of the loop pops one position and pushes only positions whose
    domain has just shrunk to one symbol, so this many passes are enough
    ([consistency_fuel_enough] below). *)
Definition consistency (cells : Cells) (Q : list pos) : result (Cells * nat) :=
  consistency_loop (List.length Q + unassigned cells) cells Q.

Fixpoint pre_process_queue (cells : Cells) (ps : list pos) (Q : list pos)
    : result (list pos) :=
  match ps with
  | [] => Ret Q
  | (i, j) :: ps' =>
      d ← Grid.get cells i j;
      if Str.len d =? 1 then pre_process_queue cells ps' (Q ++ [(i, j)])
      else pre_process_queue cells ps' Q
  end.

(** The value of [consistency] is dropped; the grid it leaves is the result. *)
Definition pre_process_consistency (cells : Cells) : result Cells :=
  Q ← pre_process_queue cells
         (nested (range (Grid.get_width cells)) (range (Grid.get_width cells))) [];
  '(cells, _) ← consistency cells Q;
  Ret cells.

End AC3.

(** ** The store of grid objects *)

Abbreviation loc := nat.
Abbreviation heap := (list (list (list string))).

Module Store.

(** The matrix of the grid object at [l]. *)
Definition deref (h : heap) (l : loc) : result Cells :=
  match h !! l with
  | None => Raise NoObject
  | Some cells => Ret cells
  end.

(** [Grid.copy]: a new object, at the first free location. *)
Definition copy (h : heap) (self : loc) : result (loc * heap) :=
  cells ← deref h self;
  Ret (List.length h, h ++ [Grid.copy cells]).

(** [l.get_cells()[i][j] = d] *)
Definition assign (h : heap) (l : loc) (i j : nat) (d : string) : result heap :=
  cells ← deref h l;
  cells ← Grid.set cells i j d;
  Ret (<[l := cells]> h).

(** [AC3().consistency(l, Q)]: the method mutates the one grid it is given. *)
Definition consistency (h : heap) (l : loc) (Q : list pos) : result (nat * heap) :=
  cells ← deref h l;
  '(cells, inference) ← AC3.consistency cells Q;
  Ret (inference, <[l := cells]> h).

(** [AC3().pre_process_consistency(l)] *)
Definition pre_process_consistency (h : heap) (l : loc) : result heap :=
  cells ← deref h l;
  cells ← AC3.pre_process_consistency cells;
  Ret (<[l := cells]> h).

End Store.

(** ** class Backtracking *)

(** What [search] returns: a grid object or the integer [0]. *)
Inductive search_result : Type :=
| Found (grid : loc)
| Zero.

Module Backtracking.

Fixpoint getRowValues_loop (cells : Cells) (var : pos) (js : list nat)
    (rowStr : string) : result string :=
  match js with
  | [] => Ret rowStr
  | j :: js' =>
      d ← Grid.get cells var.1 j;
      if Str.len d =? 1
      then getRowValues_loop cells var js' (String.append rowStr d)
      else getRowValues_loop cells var js' rowStr
  end.

Definition getRowValues (cells : Cells) (var : pos) : result string :=
  getRowValues_loop cells var (range (Grid.get_width cells)) "".

Fixpoint getColumnValues_loop (cells : Cells) (var : pos) (rows : list nat)
    (columnStr : string) : result string :=
  match rows with
  | [] => Ret columnStr
  | i :: rows' =>
      d ← Grid.get cells i var.2;
      if Str.len d =? 1
      then getColumnValues_loop cells var rows' (String.append columnStr d)
      else getColumnValues_loop cells var rows' columnStr
  end.

Definition getColumnValues (cells : Cells) (var : pos) : result string :=
  getColumnValues_loop cells var (range (Grid.get_width cells)) "".

Fixpoint getUnitValues_loop (cells : Cells) (var : pos) (ps : list pos)
    (unitStr : string) : result string :=
  match ps with
  | [] => Ret unitStr
  | (i, j) :: ps' =>
      if (i =? var.1) && (j =? var.2)
      then getUnitValues_loop cells var ps' unitStr
      else
        d ← Grid.get cells i j;
        if Str.len d =? 1
        then getUnitValues_loop cells var ps' (String.append unitStr d)
        else getUnitValues_loop cells var ps' unitStr
  end.

Definition getUnitValues (cells : Cells) (var : pos) : result string :=
  let row_init := (var.1 / 3) * 3 in
  let column_init := (var.2 / 3) * 3 in
  getUnitValues_loop cells var
    (nested (range_from row_init 3) (range_from column_init 3)) "".

Definition isConsistent (cells : Cells) (var : pos) (value : string) : result bool :=
  rowStr ← getRowValues cells var;
  if Str.contains rowStr value then Ret false
  else
    columnStr ← getColumnValues cells var;
    if Str.contains columnStr value then Ret false
    else
      unitStr ← getUnitValues cells var;
      if Str.contains unitStr value then Ret false
      else Ret true.

(** The [for d in ...] loop of [search] over the symbols [ds] still to try;
    [rec] is the recursive call [new_search.search]. *)
Fixpoint search_loop (rec : heap -> loc -> result (search_result * heap))
    (grid : loc) (var : pos) (ds : string) (h : heap)
    : result (search_result * heap) :=
  match ds with
  | EmptyString => Ret (Zero, h)
  | String c ds' =>
      let d := String c EmptyString in
      cells ← Store.deref h grid;
      ok ← isConsistent cells var d;
      if (ok : bool) then
        '(copy_A, h) ← Store.copy h grid;
        h ← Store.assign h copy_A var.1 var.2 d;
        let Q : list pos := [(var.1, var.2)] in
        '(inference, h) ← Store.consistency h copy_A Q;
        if inference =? 0 then search_loop rec grid var ds' h
        else
          '(rb, h) ← rec h copy_A;
          match rb with
          | Found _ => Ret (rb, h)
          | Zero => search_loop rec grid var ds' h
          end
      else search_loop rec grid var ds' h
  end.

(** [search]; [fuel] bounds the depth of the recursion. *)
Fixpoint search_fuel (fuel : nat) (var_selector : VarSelector) (h : heap)
    (grid : loc) : result (search_result * heap) :=
  match fuel with
  | O => OutOfFuel
  | S fuel =>
      cells ← Store.deref h grid;
      solved ← Grid.is_solved cells;
      if (solved : bool) then Ret (Found grid, h)
      else
        var ← select_variable var_selector cells;
        match var with
        | PyNone => Raise TypeError
        | PyTuple i j =>
            ds ← Grid.get cells i j;
            search_loop (search_fuel fuel var_selector) grid (i, j) ds h
        end
  end.

(** The sum of the lengths of all domains. *)
Definition weight (cells : Cells) : nat := Grid.total Str.len cells.

(** Every recursive call is on a clone of smaller weight, so the recursion
    is no deeper than the weight ([search_fuel_enough] below). *)
Definition search (var_selector : VarSelector) (h : heap) (grid : loc)
    : result (search_result * heap) :=
  cells ← Store.deref h grid;
  search_fuel (S (weight cells)) var_selector h grid.

End Backtracking.

(** ** The driver: one pass of the script's loop over the puzzles *)

(** [g = Grid(); g.read_file(p); ac3Pre.pre_process_consistency(g);
    resultSolution = backTest.search(g, curr_selector)] *)
Definition solve (curr_selector : VarSelector) (p : string)
    : result (search_result * heap) :=
  let g := 0 in
  let h := [Grid.init] in
  cells ← Store.deref h g;
  let h := <[g := Grid.read_file cells p]> h in
  h ← Store.pre_process_consistency h g;
  Backtracking.search curr_selector h g.

(** * Vocabulary of the properties *)

(** The domain stored at a position, if the position is inside the matrix. *)
Definition cell (cells : Cells) (p : pos) : option string :=
  match cells !! p.1 with
  | None => None
  | Some row => row !! p.2
  end.

Definition chars (s : string) : list ascii := list_ascii_of_string s.

(** Removing one symbol [c]. *)
Definition strip (c : ascii) (s : string) : string :=
  Str.replace s (String c "") "".

Definition in_range (p : pos) : Prop := p.1 < 9 /\ p.2 < 9.

Definition shape9 (cells : Cells) : Prop :=
  List.length cells = 9 /\ Forall (fun row => List.length row = 9) cells.

(** Either the domain is kept, or it had several symbols and lost some, but
    not all. *)
Definition shrunk (d d' : string) : Prop :=
  d' = d \/
  (d' <> "" /\ 1 < Str.len d /\ Str.len d' <= Str.len d /\
   forall c, In c (chars d') -> In c (chars d)).

Definition evolves : Cells -> Cells -> Prop := Forall2 (Forall2 shrunk).

(** The loop the three [remove_domain_*] methods run, over the positions
    [ts] they prune. *)
Fixpoint prune_all (cells : Cells) (row column : nat) (ts : list pos)
    (va : list pos) : result (Cells * (option (list pos) * bool)) :=
  match ts with
  | [] => Ret (cells, (Some va, false))
  | (i, j) :: ts' =>
      r ← AC3.prune cells row column i j va;
      match r with
      | None => Ret (cells, (None, true))
      | Some (cells, va) => prune_all cells row column ts' va
      end
  end.

Definition row_peers (var : pos) : list pos :=
  flat_map (fun j => if j =? var.2 then [] else [(var.1, j)]) (range 9).

Definition column_peers (var : pos) : list pos :=
  flat_map (fun i => if i =? var.1 then [] else [(i, var.2)]) (range 9).

Definition unit_peers (var : pos) : list pos :=
  flat_map (fun q : pos => if (q.1 =? var.1) && (q.2 =? var.2) then [] else [q])
    (nested (range_from (var.1 / 3 * 3) 3) (range_from (var.2 / 3 * 3) 3)).

Definition peers (var : pos) : list pos :=
  row_peers var ++ column_peers var ++ unit_peers var.

(** What a removal returns: the list and no failure, or no list and failure. *)
Definition removal_ok (r : option (list pos) * bool) : Prop :=
  match r with
  | (Some _, false) | (None, true) => True
  | _ => False
  end.

(** The three removals of a pass: the grid they leave, and the positions to
    enqueue unless one of them failed. *)
Definition pass (cells : Cells) (var : pos) : result (Cells * option (list pos)) :=
  '(cells, (var_assigned_row, row_failure)) ← AC3.remove_domain_row cells var.1 var.2;
  '(cells, (var_assigned_column, column_failure)) ←
    AC3.remove_domain_column cells var.1 var.2;
  '(cells, (var_assigned_unit, unit_failure)) ← AC3.remove_domain_unit cells var.1 var.2;
  match var_assigned_row, var_assigned_column, var_assigned_unit with
  | Some r, Some c, Some u => Ret (cells, Some (r ++ c ++ u))
  | _, _, _ => Ret (cells, None)
  end.

(** Every domain is as it was, or has lost the symbol [c] and is not empty. *)
Definition stripped (c : ascii) (cells cells' : Cells) : Prop :=
  forall q, cell cells' q = cell cells q \/
            exists d, cell cells q = Some d /\ cell cells' q = Some (strip c d) /\
                      strip c d <> "".

(** The domain [read_file] stores for a character of the puzzle. *)
Definition domain_of (p : ascii) : string :=
  if Ascii.eqb p "."%char then Grid._complete_domain else String p "".

(** The complete groups of nine of a list, in order. *)
Definition rows_of (l : list string) : Cells :=
  map (fun k => take 9 (drop (9 * k) l)) (seq 0 (List.length l / 9)).

(** What the driver gets from [g = Grid(); g.read_file(p)].  [read_file] has
    no failing path, so the outcome is always a grid. *)
Inductive initialized : Type :=
| Constructed (cells : Cells)
| MalformedPuzzle.

Definition initialize (string_puzzle : string) : initialized :=
  Constructed (Grid.read_file Grid.init string_puzzle).

(** An input the specification calls well formed. *)
Definition well_formed_puzzle (string_puzzle : string) : Prop :=
  String.length string_puzzle = 81 /\
  Forall (fun p => In p (chars "123456789.")) (chars string_puzzle).

Definition well_formed_puzzleb (string_puzzle : string) : bool :=
  (String.length string_puzzle =? 81) &&
  forallb (fun p => existsb (Ascii.eqb p) (chars "123456789.")) (chars string_puzzle).

Definition puzzle_of_80 : string :=
  "53..7....6..195....98....6.8...6...34..8.3..17...2...6.6....28....419..5....8..7".

(** A well-formed puzzle gives a grid of nine rows of nine domains, each the
    full domain or one symbol of the alphabet. *)
Definition alphabet : list ascii := chars "123456789".

Definition wf_domain (d : string) : Prop :=
  1 <= Str.len d <= 9 /\ Forall (fun c => In c alphabet) (chars d).

Definition wf_grid (cells : Cells) : Prop :=
  List.length cells = 9 /\
  Forall (fun row => List.length row = 9 /\ Forall wf_domain row) cells.

Definition wf_domainb (d : string) : bool :=
  (1 <=? Str.len d) && (Str.len d <=? 9) &&
  forallb (fun c => existsb (Ascii.eqb c) alphabet) (chars d).

(** The domain at a position of the grid, empty outside of it. *)
Definition domain (cells : Cells) (p : pos) : string := default "" (cell cells p).

(** Every domain has exactly one symbol. *)
Definition complete (cells : Cells) : Prop :=
  forall p, in_range p -> Str.len (domain cells p) = 1.

(** The scan order of the selectors, and the rank of a position in it. *)
Definition positions : list pos := nested (range 9) (range 9).
Definition row_major (p : pos) : nat := 9 * p.1 + p.2.

Definition solved_grid : Cells :=
  Grid.read_file Grid.init
    "534678912672195348198342567859761423426853791713924856961537284287419635345286179".

Definition easy_puzzle : string :=
  "53..7....6..195....98....6.8...6...34..8.3..17...2...6.6....28....419..5....8..79".

Definition easy_grid : Cells := Grid.read_file Grid.init easy_puzzle.

Definition completeb (cells : Cells) : bool :=
  forallb (fun p => Str.len (domain cells p) =? 1) positions.

(** From a well-formed puzzle, by successful propagation and by the steps
    of the search: a clone with one symbol of the selected domain assigned,
    then propagated with success. *)
Inductive reachable : Cells -> Prop :=
| reachable_initial string_puzzle :
    well_formed_puzzle string_puzzle ->
    reachable (Grid.read_file Grid.init string_puzzle)
| reachable_consistency cells Q cells' :
    reachable cells ->
    AC3.consistency cells Q = Ret (cells', 1) ->
    reachable cells'
| reachable_search_step cells var_selector i j ds c copy_A cells' :
    reachable cells ->
    Grid.is_solved cells = Ret false ->
    select_variable var_selector cells = Ret (PyTuple i j) ->
    Grid.get cells i j = Ret ds ->
    In c (chars ds) ->
    Backtracking.isConsistent cells (i, j) (String c "") = Ret true ->
    Grid.set (Grid.copy cells) i j (String c "") = Ret copy_A ->
    AC3.consistency copy_A [(i, j)] = Ret (cells', 1) ->
    reachable cells'.

(** A position of the queue is inside the grid and holds one symbol. *)
Definition assigned (cells : Cells) (p : pos) : Prop :=
  in_range p /\ Str.len (domain cells p) = 1.

(** Removing the symbol of [var] from the domain of one of its peers would
    leave that domain empty. *)
Definition would_empty (cells : Cells) (var : pos) : Prop :=
  exists t, t ∈ peers var /\
            Str.replace (domain cells t) (domain cells var) "" = "".

(** The states of the loop: from a grid and a queue, successful passes lead
    to a grid and a queue. *)
Inductive processing : Cells * list pos -> Cells * list pos -> Prop :=
| processing_here s : processing s s
| processing_pass cells Q var cells' new s :
    pass cells var = Ret (cells', Some new) ->
    processing (cells', Q ++ new) s ->
    processing (cells, Q ++ [var]) s.

Definition clash_puzzle : string :=
  "55.678912672195348198342567859761423426853791713924856961537284287419635345286179".

Definition clash_grid : Cells := Grid.read_file Grid.init clash_puzzle.

(** The algorithm of the specification (section 4.4): if the grid is complete
    it is the solution; otherwise select a variable and, for each symbol of
    its domain in order, check local consistency, clone the grid, assign the
    symbol, propagate from the variable, and on success recurse on the clone;
    the first solution is returned, and failure when every symbol has been
    tried.  Grids are values here: there is no store, a clone is the grid. *)
Fixpoint search_spec_loop (rec : Cells -> result (option Cells))
    (cells : Cells) (var : pos) (ds : string) : result (option Cells) :=
  match ds with
  | EmptyString => Ret None
  | String c ds' =>
      ok ← Backtracking.isConsistent cells var (String c "");
      if (ok : bool) then
        clone ← Grid.set (Grid.copy cells) var.1 var.2 (String c "");
        '(clone, outcome) ← AC3.consistency clone [(var.1, var.2)];
        if outcome =? 0 then search_spec_loop rec cells var ds'
        else
          r ← rec clone;
          match r with
          | Some solution => Ret (Some solution)
          | None => search_spec_loop rec cells var ds'
          end
      else search_spec_loop rec cells var ds'
  end.

Fixpoint search_spec (fuel : nat) (var_selector : VarSelector) (cells : Cells)
    : result (option Cells) :=
  match fuel with
  | O => OutOfFuel
  | S fuel =>
      solved ← Grid.is_solved cells;
      if (solved : bool) then Ret (Some cells)
      else
        var ← select_variable var_selector cells;
        match var with
        | PyNone => Raise TypeError
        | PyTuple i j =>
            ds ← Grid.get cells i j;
            search_spec_loop (search_spec fuel var_selector) cells (i, j) ds
        end
  end.

(** The result of [Backtracking.search] on a store against the result of
    the search on values: the same outcome, the solution stored at the
    location returned, and the store only extended. *)
Definition refines (h : heap) (r : result (search_result * heap))
    (v : result (option Cells)) : Prop :=
  match v with
  | Ret (Some solution) =>
      exists l h', r = Ret (Found l, h') /\ h' !! l = Some solution /\ h `prefix_of` h'
  | Ret None => exists h', r = Ret (Zero, h') /\ h `prefix_of` h'
  | Raise e => r = Raise e
  | OutOfFuel => r = OutOfFuel
  end.

(** The search on values with the fuel [Backtracking.search] takes. *)
Definition solution (var_selector : VarSelector) (cells : Cells)
    : result (option Cells) :=
  search_spec (S (Backtracking.weight cells)) var_selector cells.

(** No two assigned positions that are peers hold the same symbol. *)
Definition no_conflict (cells : Cells) : Prop :=
  forall p q c, in_range p -> q ∈ peers p ->
    cell cells p = Some (String c "") -> cell cells q = Some (String c "") -> False.

(** Two assigned peers may share a symbol only if one of them is still in
    the queue. *)
Definition pending (cells : Cells) (Q : list pos) : Prop :=
  forall p q c, in_range p -> q ∈ peers p ->
    cell cells p = Some (String c "") -> cell cells q = Some (String c "") ->
    p ∈ Q \/ q ∈ Q.

Definition row_unit (i : nat) : list pos := map (fun j => (i, j)) (range 9).
Definition column_unit (j : nat) : list pos := map (fun i => (i, j)) (range 9).
Definition box_unit (b : nat) : list pos :=
  nested (range_from (b / 3 * 3) 3) (range_from (b mod 3 * 3) 3).

(** The nine rows, the nine columns and the nine boxes. *)
Definition units : list (list pos) :=
  map row_unit (range 9) ++ map column_unit (range 9) ++ map box_unit (range 9).

Definition symbols : list string := map (fun c => String c "") alphabet.

(** How many positions of a unit hold exactly the symbol [s]. *)
Definition occurrences (cells : Cells) (unit : list pos) (s : string) : nat :=
  count_occ string_dec (map (domain cells) unit) s.

(** Nine rows of nine domains of one symbol, every unit holding each of the
    nine symbols exactly once. *)
Definition solved_sudoku (cells : Cells) : Prop :=
  shape9 cells /\ complete cells /\
  forall unit, unit ∈ units -> forall s, s ∈ symbols -> occurrences cells unit s = 1.

Definition clash_solution : Cells :=
  Grid.read_file Grid.init
    "554678912672195348198342567859761423426853791713924856961537284287419635345286179".

(** One turn of the loop of [search], for the symbol [c] and from the store
    [h]: the local check, then the clone, the assignment, the propagation
    and, when it succeeds, the search from the clone.  [Zero] is the outcome
    after which the loop goes on to the next symbol, a grid the outcome that
    [search] returns at once. *)
Definition attempt (var_selector : VarSelector) (grid : loc) (var : pos) (c : ascii)
    (h : heap) : result (search_result * heap) :=
  cells ← Store.deref h grid;
  ok ← Backtracking.isConsistent cells var (String c "");
  if (ok : bool) then
    '(copy_A, h) ← Store.copy h grid;
    h ← Store.assign h copy_A var.1 var.2 (String c "");
    '(inference, h) ← Store.consistency h copy_A [(var.1, var.2)];
    if inference =? 0 then Ret (Zero, h)
    else Backtracking.search var_selector h copy_A
  else Ret (Zero, h).

(** The symbols of a list, tried one after the other from the store [h],
    all fail, and leave the store [h']. *)
Inductive all_fail (var_selector : VarSelector) (grid : loc) (var : pos)
    : heap -> list ascii -> heap -> Prop :=
| all_fail_nil h : all_fail var_selector grid var h [] h
| all_fail_cons h c h1 cs h' :
    attempt var_selector grid var c h = Ret (Zero, h1) ->
    all_fail var_selector grid var h1 cs h' ->
    all_fail var_selector grid var h (c :: cs) h'.



(** The symbol of every assigned position is in no domain of its peers. *)
Definition arc_consistent (cells : Cells) : Prop :=
  forall p c, in_range p -> cell cells p = Some (String c "") ->
    forall q, q ∈ peers p -> ~ In c (chars (domain cells q)).
















(** * Properties *)

(** ** Reading and writing cells *)

Lemma get_cell cells i j :
  Grid.get cells i j =
  match cell cells (i, j) with Some d => Ret d | None => Raise IndexError end.
Proof.
  unfold Grid.get, cell; simpl.
  destruct (cells !! i) as [row|]; [|reflexivity].
  destruct (row !! j); reflexivity.
Qed.

Lemma get_Ret cells i j d :
  Grid.get cells i j = Ret d <-> cell cells (i, j) = Some d.
Proof.
  rewrite get_cell. destruct (cell cells (i, j)); split; congruence.
Qed.

Lemma set_cell cells i j d :
  Grid.set cells i j d =
  match cell cells (i, j) with
  | Some _ => Ret (<[i := <[j := d]> (default [] (cells !! i))]> cells)
  | None => Raise IndexError
  end.
Proof.
  unfold Grid.set, cell; simpl.
  destruct (cells !! i) as [row|] eqn:Hrow; [|reflexivity]. simpl.
  destruct (decide (j < List.length row)) as [Hlt|Hge].
  - destruct (lookup_lt_is_Some_2 row j Hlt) as [x ->]. reflexivity.
  - rewrite lookup_ge_None_2 by lia. reflexivity.
Qed.

Lemma set_Ret cells i j d cells' :
  Grid.set cells i j d = Ret cells' ->
  is_Some (cell cells (i, j)) /\
  cell cells' (i, j) = Some d /\
  (forall q, q <> (i, j) -> cell cells' q = cell cells q).
Proof.
  rewrite set_cell. destruct (cell cells (i, j)) as [d0|] eqn:Hc; [|discriminate].
  intros [= <-]. split; [eauto|].
  unfold cell in Hc; simpl in Hc.
  destruct (cells !! i) as [row|] eqn:Hrow; [|discriminate]. simpl.
  assert (Hi : i < List.length cells) by (eapply lookup_lt_Some; eauto).
  assert (Hj : j < List.length row) by (eapply lookup_lt_Some; eauto).
  split.
  - unfold cell; simpl. rewrite list_lookup_insert_eq by exact Hi.
    apply list_lookup_insert_eq. exact Hj.
  - intros [i' j'] Hne. unfold cell; simpl.
    destruct (decide (i' = i)) as [->|Hi'].
    + rewrite list_lookup_insert_eq by exact Hi. rewrite Hrow.
      apply list_lookup_insert_ne. congruence.
    + rewrite list_lookup_insert_ne by congruence. reflexivity.
Qed.

Lemma set_is_Some cells i j d :
  is_Some (cell cells (i, j)) -> exists cells', Grid.set cells i j d = Ret cells'.
Proof.
  intros [d0 Hd0]. rewrite set_cell, Hd0. eauto.
Qed.

(** ** Strings *)

Lemma append_empty_l s : String.append "" s = s.
Proof. reflexivity. Qed.

Lemma surround_empty s : Str.surround "" s = s.
Proof. induction s as [|c s IH]; simpl; [reflexivity|]. now rewrite IH. Qed.

Lemma replace_from_len old k s :
  Str.len (Str.replace_from old "" k s) <= Str.len s.
Proof.
  unfold Str.len. revert k.
  induction s as [|c s IH]; intros k; cbn [Str.replace_from String.length]; [lia|].
  destruct k as [|k].
  - destruct (String.prefix old (String c s)); simpl.
    + specialize (IH (String.length old - 1)). lia.
    + specialize (IH 0). lia.
  - specialize (IH k). lia.
Qed.

Lemma replace_len s old : Str.len (Str.replace s old "") <= Str.len s.
Proof.
  destruct old as [|c old]; simpl.
  - rewrite surround_empty. lia.
  - apply replace_from_len.
Qed.

Lemma replace_from_chars old k s c :
  In c (chars (Str.replace_from old "" k s)) -> In c (chars s).
Proof.
  revert k.
  induction s as [|x s IH]; intros k;
    cbn [Str.replace_from chars list_ascii_of_string In]; [tauto|].
  destruct k as [|k].
  - destruct (String.prefix old (String x s)); simpl.
    + intros H. right. eapply IH, H.
    + intros [H|H]; [now left|]. right. eapply IH, H.
  - intros H. right. eapply IH, H.
Qed.

Lemma replace_chars s old c :
  In c (chars (Str.replace s old "")) -> In c (chars s).
Proof.
  destruct old as [|x old]; simpl.
  - now rewrite surround_empty.
  - apply replace_from_chars.
Qed.

Lemma len_0 s : Str.len s = 0 <-> s = "".
Proof. destruct s; simpl; split; (congruence || discriminate). Qed.

Lemma len_1 s : Str.len s = 1 <-> exists c, s = String c "".
Proof.
  destruct s as [|c [|c' s]]; simpl; split;
    try discriminate; try (intros [x Hx]; discriminate).
  - intros _. eauto.
  - reflexivity.
Qed.

(** A one-symbol domain either loses its symbol or stays as it is. *)
Lemma replace_single s old :
  Str.len s = 1 -> Str.replace s old "" = "" \/ Str.replace s old "" = s.
Proof.
  intros [c ->]%len_1. destruct old as [|x [|y old]].
  - now right.
  - cbn. destruct (ascii_dec x c); simpl; tauto.
  - cbn. destruct (ascii_dec x c); simpl; tauto.
Qed.

Lemma strip_cons c x s :
  strip c (String x s) = if Ascii.eqb c x then strip c s else String x (strip c s).
Proof.
  unfold strip; simpl.
  destruct (ascii_dec c x) as [->|Hne].
  - rewrite Ascii.eqb_refl. now destruct s.
  - apply Ascii.eqb_neq in Hne. now rewrite Hne.
Qed.

Lemma strip_In c s x : In x (chars (strip c s)) <-> In x (chars s) /\ x <> c.
Proof.
  induction s as [|y s IH]; [simpl; tauto|].
  rewrite strip_cons. destruct (Ascii.eqb c y) eqn:E.
  - apply Ascii.eqb_eq in E. subst y. rewrite IH. simpl. intuition congruence.
  - apply Ascii.eqb_neq in E. simpl. rewrite IH. intuition congruence.
Qed.

Lemma strip_notin c s : ~ In c (chars s) -> strip c s = s.
Proof.
  induction s as [|y s IH]; [reflexivity|].
  simpl. intros H. rewrite strip_cons.
  destruct (Ascii.eqb c y) eqn:E.
  - apply Ascii.eqb_eq in E. subst y. tauto.
  - f_equal. apply IH. tauto.
Qed.

Lemma strip_idem c s : strip c (strip c s) = strip c s.
Proof. apply strip_notin. rewrite strip_In. tauto. Qed.

Lemma strip_single c x :
  strip c (String x "") = if Ascii.eqb c x then "" else String x "".
Proof. rewrite strip_cons. reflexivity. Qed.





(** ** Grids of nine rows of nine domains *)

Lemma shape9_cell cells p : shape9 cells -> is_Some (cell cells p) <-> in_range p.
Proof.
  intros [Hlen Hrows]. unfold cell, in_range. destruct p as [i j]; simpl.
  split.
  - intros [d Hd]. destruct (cells !! i) as [row|] eqn:Hrow; [|discriminate].
    split.
    + apply lookup_lt_Some in Hrow. lia.
    + apply lookup_lt_Some in Hd.
      rewrite Forall_lookup in Hrows. specialize (Hrows _ _ Hrow). simpl in Hrows. lia.
  - intros [Hi Hj].
    destruct (lookup_lt_is_Some_2 cells i) as [row Hrow]; [lia|]. rewrite Hrow.
    rewrite Forall_lookup in Hrows. specialize (Hrows _ _ Hrow). simpl in Hrows.
    apply lookup_lt_is_Some_2. lia.
Qed.

Lemma shape9_get cells i j :
  shape9 cells -> i < 9 -> j < 9 ->
  exists d, cell cells (i, j) = Some d /\ Grid.get cells i j = Ret d.
Proof.
  intros Hs Hi Hj.
  destruct (proj2 (shape9_cell cells (i, j) Hs)) as [d Hd]; [split; assumption|].
  exists d. split; [assumption|]. now apply get_Ret.
Qed.

Lemma shape9_out cells i j :
  shape9 cells -> ~ in_range (i, j) -> Grid.get cells i j = Raise IndexError.
Proof.
  intros Hs Hout. rewrite get_cell.
  destruct (cell cells (i, j)) as [d|] eqn:Hd; [|reflexivity].
  exfalso. apply Hout. apply (shape9_cell cells); eauto.
Qed.

(** ** How pruning changes a domain, and a grid *)

#[local] Instance shrunk_refl : Reflexive shrunk.
Proof. intros d. now left. Qed.

#[local] Instance shrunk_trans : Transitive shrunk.
Proof.
  intros d1 d2 d3 [->|(Hne & Hlen & Hle & Hin)] [->|(Hne' & Hlen' & Hle' & Hin')].
  - now left.
  - right. auto.
  - right. auto.
  - right. repeat split; [assumption|assumption|lia|auto].
Qed.

Lemma evolves_refl cells : evolves cells cells.
Proof. unfold evolves. reflexivity. Qed.

Lemma evolves_trans c1 c2 c3 : evolves c1 c2 -> evolves c2 c3 -> evolves c1 c3.
Proof. unfold evolves. intros H1 H2. etransitivity; eassumption. Qed.

Lemma evolves_cell cells cells' p d :
  evolves cells cells' -> cell cells p = Some d ->
  exists d', cell cells' p = Some d' /\ shrunk d d'.
Proof.
  unfold cell. intros Hev Hd.
  destruct (cells !! p.1) as [row|] eqn:Hrow; [|discriminate].
  destruct (Forall2_lookup_l _ _ _ _ _ Hev Hrow) as (row' & -> & Hrows).
  exact (Forall2_lookup_l _ _ _ _ _ Hrows Hd).
Qed.

Lemma evolves_cell_inv cells cells' p d' :
  evolves cells cells' -> cell cells' p = Some d' ->
  exists d, cell cells p = Some d /\ shrunk d d'.
Proof.
  unfold cell. intros Hev Hd.
  destruct (cells' !! p.1) as [row'|] eqn:Hrow; [|discriminate].
  destruct (Forall2_lookup_r _ _ _ _ _ Hev Hrow) as (row & -> & Hrows).
  exact (Forall2_lookup_r _ _ _ _ _ Hrows Hd).
Qed.

Lemma evolves_shape9 cells cells' : evolves cells cells' -> shape9 cells -> shape9 cells'.
Proof.
  intros Hev [Hlen Hrows]. split.
  - rewrite <- (Forall2_length _ _ _ Hev). exact Hlen.
  - apply Forall_lookup. intros i row' Hrow'.
    destruct (Forall2_lookup_r _ _ _ _ _ Hev Hrow') as (row & Hrow & Hr).
    rewrite Forall_lookup in Hrows. specialize (Hrows _ _ Hrow). simpl in Hrows.
    simpl. rewrite <- (Forall2_length _ _ _ Hr). exact Hrows.
Qed.

Lemma evolves_set cells i j d d' cells' :
  cell cells (i, j) = Some d -> shrunk d d' ->
  Grid.set cells i j d' = Ret cells' -> evolves cells cells'.
Proof.
  intros Hd Hsh. rewrite set_cell, Hd. intros [= <-].
  unfold cell in Hd; simpl in Hd.
  destruct (cells !! i) as [row|] eqn:Hrow; [|discriminate]. simpl.
  unfold evolves.
  rewrite <- (list_insert_id cells i row Hrow) at 1.
  apply Forall2_insert; [reflexivity|].
  rewrite <- (list_insert_id row j d Hd) at 1.
  apply Forall2_insert; [reflexivity|exact Hsh].
Qed.

(** A one-symbol domain is never changed. *)
Lemma shrunk_single d d' : shrunk d d' -> Str.len d <= 1 -> d' = d.
Proof. intros [->|(_ & Hlen & _)] H; [reflexivity|lia]. Qed.

Lemma shrunk_len d d' : shrunk d d' -> Str.len d' <= Str.len d.
Proof. intros [->|(_ & _ & Hle & _)]; lia. Qed.

Lemma shrunk_nonempty d d' : shrunk d d' -> d <> "" -> d' <> "".
Proof. intros [->|(Hne & _)] H; assumption. Qed.

Lemma shrunk_chars d d' c : shrunk d d' -> In c (chars d') -> In c (chars d).
Proof. intros [->|(_ & _ & _ & Hin)]; auto. Qed.

(** What [prune] writes is a shrunk domain. *)
Lemma replace_shrunk d own :
  Str.len (Str.replace d own "") <> 0 -> shrunk d (Str.replace d own "").
Proof.
  intros Hne. pose proof (replace_len d own) as Hle.
  destruct (decide (1 < Str.len d)) as [Hlt|Hge].
  - right. repeat split; try assumption.
    + intros E. apply Hne. now rewrite E.
    + intros c. apply replace_chars.
  - left. assert (Hone : Str.len d = 1) by lia.
    destruct (replace_single d own Hone) as [E|E]; [|exact E].
    rewrite E in Hne. now elim Hne.
Qed.

(** ** Sums over the domains *)

Lemma total_evolves f cells cells' :
  (forall d d', shrunk d d' -> f d' <= f d) ->
  evolves cells cells' -> Grid.total f cells' <= Grid.total f cells.
Proof.
  intros Hf Hev. unfold Grid.total.
  induction Hev as [|row row' cells cells' Hrow _ IH]; simpl; [lia|].
  assert (sum_list (map f row') <= sum_list (map f row)).
  { clear -Hf Hrow. induction Hrow as [|d d' row row' Hd _ IH]; simpl; [lia|].
    specialize (Hf _ _ Hd). lia. }
  lia.
Qed.

Lemma sum_list_insert (f : string -> nat) (l : list string) i x y :
  l !! i = Some x ->
  sum_list (map f (<[i := y]> l)) + f x = sum_list (map f l) + f y.
Proof.
  revert i. induction l as [|a l IH]; intros [|i] H; simpl in *; try discriminate.
  - injection H as ->. lia.
  - specialize (IH _ H). lia.
Qed.

Lemma sum_list_insert_rows (g : list string -> nat) (l : list (list string)) i x y :
  l !! i = Some x ->
  sum_list (map g (<[i := y]> l)) + g x = sum_list (map g l) + g y.
Proof.
  revert i. induction l as [|a l IH]; intros [|i] H; simpl in *; try discriminate.
  - injection H as ->. lia.
  - specialize (IH _ H). lia.
Qed.

Lemma total_set f cells i j d d' cells' :
  cell cells (i, j) = Some d -> Grid.set cells i j d' = Ret cells' ->
  Grid.total f cells' + f d = Grid.total f cells + f d'.
Proof.
  intros Hd. rewrite set_cell, Hd. intros [= <-].
  unfold cell in Hd; simpl in Hd.
  destruct (cells !! i) as [row|] eqn:Hrow; [|discriminate]. simpl.
  unfold Grid.total.
  pose proof (sum_list_insert_rows (fun row => sum_list (map f row)) cells i row
                (<[j := d']> row) Hrow) as H1.
  pose proof (sum_list_insert f row j d d' Hd) as H2.
  simpl in H1. lia.
Qed.

Lemma weight_evolves cells cells' :
  evolves cells cells' -> Backtracking.weight cells' <= Backtracking.weight cells.
Proof. apply total_evolves. intros d d'. apply shrunk_len. Qed.

Lemma unassigned_evolves cells cells' :
  evolves cells cells' -> AC3.unassigned cells' <= AC3.unassigned cells.
Proof.
  apply total_evolves. intros d d' H. pose proof (shrunk_len _ _ H).
  destruct (Nat.ltb_spec 1 (Str.len d')), (Nat.ltb_spec 1 (Str.len d)); lia.
Qed.

(** ** One pruning step *)

Lemma prune_cases cells row column i j va :
  match AC3.prune cells row column i j va with
  | Ret None =>
      exists d own, cell cells (i, j) = Some d /\ cell cells (row, column) = Some own /\
        Str.replace d own "" = ""
  | Ret (Some (cells', va')) =>
      exists d own, cell cells (i, j) = Some d /\ cell cells (row, column) = Some own /\
        Str.replace d own "" <> "" /\
        Grid.set cells i j (Str.replace d own "") = Ret cells' /\
        va' = va ++ (if (Str.len (Str.replace d own "") =? 1) && (1 <? Str.len d)
                     then [(i, j)] else [])
  | Raise e => e = IndexError /\ (cell cells (i, j) = None \/ cell cells (row, column) = None)
  | OutOfFuel => False
  end.
Proof.
  unfold AC3.prune. rewrite !get_cell.
  destruct (cell cells (i, j)) as [d|] eqn:Hd; simpl; [|auto].
  destruct (cell cells (row, column)) as [own|] eqn:Hown; simpl; [|auto].
  destruct (Nat.eqb_spec (Str.len (Str.replace d own "")) 0) as [E|E].
  - exists d, own. repeat split; try assumption. now apply len_0.
  - destruct (set_is_Some cells i j (Str.replace d own "")) as [cells' Hset]; [eauto|].
    rewrite Hset. simpl. exists d, own. repeat split; try assumption.
    + now rewrite <- len_0.
    + destruct ((Str.len (Str.replace d own "") =? 1) && (1 <? Str.len d));
        [reflexivity|now rewrite app_nil_r].
Qed.

Lemma remove_domain_row_loop_eq cells row column js va :
  AC3.remove_domain_row_loop cells row column js va =
  prune_all cells row column
    (flat_map (fun j => if j =? column then [] else [(row, j)]) js) va.
Proof.
  revert cells va. induction js as [|j js IH]; intros cells va; simpl; [reflexivity|].
  destruct (j =? column); simpl; [apply IH|].
  destruct (AC3.prune cells row column row j va) as [[[cells' va']|]| |]; simpl;
    try reflexivity.
  apply IH.
Qed.

Lemma remove_domain_column_loop_eq cells row column js va :
  AC3.remove_domain_column_loop cells row column js va =
  prune_all cells row column
    (flat_map (fun i => if i =? row then [] else [(i, column)]) js) va.
Proof.
  revert cells va. induction js as [|j js IH]; intros cells va; simpl; [reflexivity|].
  destruct (j =? row); simpl; [apply IH|].
  destruct (AC3.prune cells row column j column va) as [[[cells' va']|]| |]; simpl;
    try reflexivity.
  apply IH.
Qed.

Lemma remove_domain_unit_loop_eq cells row column ps va :
  AC3.remove_domain_unit_loop cells row column ps va =
  prune_all cells row column
    (flat_map (fun q : pos => if (q.1 =? row) && (q.2 =? column) then [] else [q]) ps) va.
Proof.
  revert cells va. induction ps as [|[i j] ps IH]; intros cells va; simpl; [reflexivity|].
  destruct ((i =? row) && (j =? column)); simpl; [apply IH|].
  destruct (AC3.prune cells row column i j va) as [[[cells' va']|]| |]; simpl;
    try reflexivity.
  apply IH.
Qed.

Lemma remove_domain_row_eq cells var :
  AC3.remove_domain_row cells var.1 var.2 = prune_all cells var.1 var.2 (row_peers var) [].
Proof. apply remove_domain_row_loop_eq. Qed.

Lemma remove_domain_column_eq cells var :
  AC3.remove_domain_column cells var.1 var.2 =
  prune_all cells var.1 var.2 (column_peers var) [].
Proof. apply remove_domain_column_loop_eq. Qed.

Lemma remove_domain_unit_eq cells var :
  AC3.remove_domain_unit cells var.1 var.2 = prune_all cells var.1 var.2 (unit_peers var) [].
Proof. apply remove_domain_unit_loop_eq. Qed.

(** Whatever the positions and the grid, a removal only shrinks domains, and
    every position it reports was one more domain of several symbols. *)
Lemma prune_all_evolves cells row column ts va cells' r :
  prune_all cells row column ts va = Ret (cells', r) ->
  evolves cells cells' /\ removal_ok r /\
  forall va', r.1 = Some va' ->
    List.length va' + AC3.unassigned cells' <= List.length va + AC3.unassigned cells.
Proof.
  revert cells va. induction ts as [|[i j] ts IH]; intros cells va; simpl.
  - intros [= <- <-]. split; [apply evolves_refl|]. split; [exact I|].
    simpl. intros va' [= <-]. lia.
  - pose proof (prune_cases cells row column i j va) as Hp.
    destruct (AC3.prune cells row column i j va) as [[[cells1 va1]|]| |]; simpl;
      try discriminate.
    + destruct Hp as (d & own & Hd & Hown & Hne & Hset & Hva).
      intros Hrest. destruct (IH _ _ Hrest) as (Hev & Hok & Hcount).
      assert (Hsh : shrunk d (Str.replace d own "")).
      { apply replace_shrunk. now rewrite len_0. }
      pose proof (evolves_set _ _ _ _ _ _ Hd Hsh Hset) as Hev1.
      split; [eapply evolves_trans; eassumption|]. split; [assumption|].
      intros va' Hva'. specialize (Hcount va' Hva').
      enough (List.length va1 + AC3.unassigned cells1 <=
              List.length va + AC3.unassigned cells) by lia.
      subst va1. rewrite length_app.
      pose proof (total_set (fun d => if 1 <? Str.len d then 1 else 0)
                    _ _ _ _ _ _ Hd Hset) as Htot.
      fold (AC3.unassigned cells1) in Htot. fold (AC3.unassigned cells) in Htot.
      cbv beta in Htot.
      pose proof (shrunk_len _ _ Hsh) as Hle.
      destruct (Nat.eqb_spec (Str.len (Str.replace d own "")) 1) as [E1|E1];
      destruct (Nat.ltb_spec 1 (Str.len d)) as [E2|E2];
      destruct (Nat.ltb_spec 1 (Str.len (Str.replace d own ""))) as [E3|E3];
        simpl; lia.
    + intros [= <- <-]. split; [apply evolves_refl|]. split; [exact I|].
      simpl. discriminate.
Qed.

(** ** One pass of the [while Q] loop *)

Lemma pop_nil : AC3.pop [] = None.
Proof. reflexivity. Qed.

Lemma pop_snoc Q var : AC3.pop (Q ++ [var]) = Some (var, Q).
Proof. unfold AC3.pop. rewrite rev_app_distr. simpl. now rewrite rev_involutive. Qed.

Lemma pop_Some Q var Q' : AC3.pop Q = Some (var, Q') -> Q = Q' ++ [var].
Proof.
  unfold AC3.pop. destruct (rev Q) as [|x rest] eqn:E; [discriminate|].
  intros [= <- <-]. rewrite <- (rev_involutive Q), E. reflexivity.
Qed.

Lemma pop_None Q : AC3.pop Q = None -> Q = [].
Proof.
  unfold AC3.pop. destruct (rev Q) as [|x rest] eqn:E; [|discriminate].
  intros _. rewrite <- (rev_involutive Q), E. reflexivity.
Qed.

Lemma consistency_loop_nil fuel cells : AC3.consistency_loop fuel cells [] = Ret (cells, 1).
Proof. destruct fuel; reflexivity. Qed.

Lemma consistency_loop_snoc fuel cells Q var :
  AC3.consistency_loop (S fuel) cells (Q ++ [var]) =
  r ← pass cells var;
  match r with
  | (cells', None) => Ret (cells', 0)
  | (cells', Some new) => AC3.consistency_loop fuel cells' (Q ++ new)
  end.
Proof.
  cbn [AC3.consistency_loop]. rewrite pop_snoc. unfold pass.
  rewrite remove_domain_row_eq.
  destruct (prune_all cells var.1 var.2 (row_peers var) []) as [[c1 r1]| |] eqn:H1;
    simpl; try reflexivity.
  destruct (prune_all_evolves _ _ _ _ _ _ _ H1) as (_ & Hok1 & _).
  rewrite remove_domain_column_eq.
  destruct (prune_all c1 var.1 var.2 (column_peers var) []) as [[c2 r2]| |] eqn:H2;
    simpl.
  2,3: destruct r1 as [? ?]; reflexivity.
  destruct (prune_all_evolves _ _ _ _ _ _ _ H2) as (_ & Hok2 & _).
  rewrite remove_domain_unit_eq.
  destruct (prune_all c2 var.1 var.2 (unit_peers var) []) as [[c3 r3]| |] eqn:H3;
    simpl.
  2,3: destruct r1 as [? ?], r2 as [? ?]; reflexivity.
  destruct (prune_all_evolves _ _ _ _ _ _ _ H3) as (_ & Hok3 & _).
  destruct r1 as [[l1|] [|]], r2 as [[l2|] [|]], r3 as [[l3|] [|]];
    simpl in Hok1, Hok2, Hok3; try contradiction; simpl; try reflexivity.
  now rewrite <- !app_assoc.
Qed.

(** A pass only shrinks domains; the positions it enqueues are paid for by
    domains that stopped having several symbols. *)
Lemma pass_evolves cells var cells' r :
  pass cells var = Ret (cells', r) ->
  evolves cells cells' /\
  forall new, r = Some new ->
    List.length new + AC3.unassigned cells' <= AC3.unassigned cells.
Proof.
  unfold pass. rewrite remove_domain_row_eq.
  destruct (prune_all cells var.1 var.2 (row_peers var) []) as [[c1 r1]| |] eqn:H1;
    simpl; try discriminate.
  destruct (prune_all_evolves _ _ _ _ _ _ _ H1) as (He1 & Hok1 & Hc1).
  destruct r1 as [o1 f1]. simpl.
  rewrite remove_domain_column_eq.
  destruct (prune_all c1 var.1 var.2 (column_peers var) []) as [[c2 r2]| |] eqn:H2;
    simpl; try discriminate.
  destruct (prune_all_evolves _ _ _ _ _ _ _ H2) as (He2 & Hok2 & Hc2).
  destruct r2 as [o2 f2]. simpl.
  rewrite remove_domain_unit_eq.
  destruct (prune_all c2 var.1 var.2 (unit_peers var) []) as [[c3 r3]| |] eqn:H3;
    simpl; try discriminate.
  destruct (prune_all_evolves _ _ _ _ _ _ _ H3) as (He3 & Hok3 & Hc3).
  destruct r3 as [o3 f3]. simpl.
  intros Hr.
  assert (Hev : evolves cells c3).
  { eapply evolves_trans; [exact He1|]. eapply evolves_trans; eassumption. }
  destruct o1 as [l1|], o2 as [l2|], o3 as [l3|]; injection Hr as <- <-;
    (split; [exact Hev|]); intros new [= <-].
  specialize (Hc1 _ eq_refl). specialize (Hc2 _ eq_refl). specialize (Hc3 _ eq_refl).
  simpl in Hc1, Hc2, Hc3. rewrite !length_app. lia.
Qed.

Lemma prune_all_not_OutOfFuel cells row column ts va :
  prune_all cells row column ts va <> OutOfFuel.
Proof.
  revert cells va. induction ts as [|[i j] ts IH]; intros cells va; simpl; [discriminate|].
  pose proof (prune_cases cells row column i j va) as Hp.
  destruct (AC3.prune cells row column i j va) as [[[c' l']|]| |]; simpl;
    try discriminate; [apply IH|contradiction].
Qed.

Lemma pass_not_OutOfFuel cells var : pass cells var <> OutOfFuel.
Proof.
  unfold pass. rewrite remove_domain_row_eq.
  pose proof (prune_all_not_OutOfFuel cells var.1 var.2 (row_peers var) []) as N1.
  destruct (prune_all cells var.1 var.2 (row_peers var) []) as [[c1 [o1 f1]]| |];
    simpl; try discriminate; try contradiction.
  rewrite remove_domain_column_eq.
  pose proof (prune_all_not_OutOfFuel c1 var.1 var.2 (column_peers var) []) as N2.
  destruct (prune_all c1 var.1 var.2 (column_peers var) []) as [[c2 [o2 f2]]| |];
    simpl; try discriminate; try contradiction.
  rewrite remove_domain_unit_eq.
  pose proof (prune_all_not_OutOfFuel c2 var.1 var.2 (unit_peers var) []) as N3.
  destruct (prune_all c2 var.1 var.2 (unit_peers var) []) as [[c3 [o3 f3]]| |];
    simpl; try discriminate; try contradiction.
  destruct o1, o2, o3; discriminate.
Qed.

(** ** The propagation loop ends *)

Lemma consistency_loop_enough fuel cells Q :
  List.length Q + AC3.unassigned cells <= fuel ->
  AC3.consistency_loop fuel cells Q <> OutOfFuel.
Proof.
  revert cells Q. induction fuel as [|fuel IH]; intros cells Q Hfuel.
  - destruct Q as [|q Q]; [now rewrite consistency_loop_nil|]. simpl in Hfuel. lia.
  - destruct (AC3.pop Q) as [[var Q']|] eqn:Hpop.
    + apply pop_Some in Hpop. subst Q. rewrite consistency_loop_snoc.
      destruct (pass cells var) as [[cells' [new|]]| |] eqn:Hpass; simpl; try discriminate.
      2: now apply pass_not_OutOfFuel in Hpass.
      destruct (pass_evolves _ _ _ _ Hpass) as (_ & Hcount).
      specialize (Hcount _ eq_refl).
      apply IH. rewrite length_app in *. simpl in Hfuel. lia.
    + apply pop_None in Hpop. subst Q. now rewrite consistency_loop_nil.
Qed.

(** More fuel does not change a result. *)
Lemma consistency_loop_more fuel fuel' cells Q :
  AC3.consistency_loop fuel cells Q <> OutOfFuel -> fuel <= fuel' ->
  AC3.consistency_loop fuel' cells Q = AC3.consistency_loop fuel cells Q.
Proof.
  revert fuel' cells Q. induction fuel as [|fuel IH]; intros fuel' cells Q Hne Hle.
  - destruct (AC3.pop Q) as [[var Q']|] eqn:Hpop.
    + exfalso. apply Hne. simpl. now rewrite Hpop.
    + apply pop_None in Hpop. subst Q. now rewrite !consistency_loop_nil.
  - destruct fuel' as [|fuel']; [lia|].
    destruct (AC3.pop Q) as [[var Q']|] eqn:Hpop.
    + apply pop_Some in Hpop. subst Q. rewrite !consistency_loop_snoc in *.
      destruct (pass cells var) as [[cells' [new|]]| |]; simpl in *; try reflexivity.
      apply IH; [assumption|lia].
    + apply pop_None in Hpop. subst Q. now rewrite !consistency_loop_nil.
Qed.

Lemma consistency_fuel_enough fuel cells Q :
  List.length Q + AC3.unassigned cells <= fuel ->
  AC3.consistency_loop fuel cells Q = AC3.consistency cells Q.
Proof.
  intros H. unfold AC3.consistency.
  apply consistency_loop_more; [|exact H].
  apply consistency_loop_enough. lia.
Qed.

Lemma consistency_not_OutOfFuel cells Q : AC3.consistency cells Q <> OutOfFuel.
Proof. apply consistency_loop_enough. lia. Qed.

Lemma consistency_nil cells : AC3.consistency cells [] = Ret (cells, 1).
Proof. apply consistency_loop_nil. Qed.

Lemma consistency_snoc cells Q var :
  AC3.consistency cells (Q ++ [var]) =
  r ← pass cells var;
  match r with
  | (cells', None) => Ret (cells', 0)
  | (cells', Some new) => AC3.consistency cells' (Q ++ new)
  end.
Proof.
  unfold AC3.consistency at 1. rewrite length_app. simpl.
  replace (List.length Q + 1 + AC3.unassigned cells)
    with (S (List.length Q + AC3.unassigned cells)) by lia.
  rewrite consistency_loop_snoc.
  destruct (pass cells var) as [[cells' [new|]]| |] eqn:Hpass; simpl; try reflexivity.
  destruct (pass_evolves _ _ _ _ Hpass) as (_ & Hcount). specialize (Hcount _ eq_refl).
  apply consistency_fuel_enough. rewrite length_app. lia.
Qed.

(** Induction over the passes of [consistency]. *)
Lemma consistency_ind (P : Cells -> list pos -> result (Cells * nat) -> Prop) :
  (forall cells, P cells [] (Ret (cells, 1))) ->
  (forall cells Q var e, pass cells var = Raise e -> P cells (Q ++ [var]) (Raise e)) ->
  (forall cells Q var cells', pass cells var = Ret (cells', None) ->
     P cells (Q ++ [var]) (Ret (cells', 0))) ->
  (forall cells Q var cells' new, pass cells var = Ret (cells', Some new) ->
     P cells' (Q ++ new) (AC3.consistency cells' (Q ++ new)) ->
     P cells (Q ++ [var]) (AC3.consistency cells' (Q ++ new))) ->
  forall cells Q, P cells Q (AC3.consistency cells Q).
Proof.
  intros Hnil Hraise Hfail Hstep.
  enough (H : forall n cells Q, List.length Q + AC3.unassigned cells <= n ->
                P cells Q (AC3.consistency cells Q)) by (intros; eapply H; eauto).
  induction n as [|n IH]; intros cells Q Hn.
  - destruct Q as [|q Q]; [rewrite consistency_nil; apply Hnil|]. simpl in Hn. lia.
  - destruct (AC3.pop Q) as [[var Q']|] eqn:Hpop.
    + apply pop_Some in Hpop. subst Q. rewrite consistency_snoc.
      destruct (pass cells var) as [[cells' [new|]]| |] eqn:Hpass; simpl.
      * apply Hstep; [assumption|]. apply IH.
        destruct (pass_evolves _ _ _ _ Hpass) as (_ & Hcount).
        specialize (Hcount _ eq_refl). rewrite length_app in *. simpl in Hn. lia.
      * now apply Hfail.
      * now apply Hraise.
      * now apply pass_not_OutOfFuel in Hpass.
    + apply pop_None in Hpop. subst Q. rewrite consistency_nil. apply Hnil.
Qed.

(** ** What a removal does, position by position *)

Lemma consistency_evolves cells Q cells' n :
  AC3.consistency cells Q = Ret (cells', n) -> evolves cells cells' /\ (n = 0 \/ n = 1).
Proof.
  revert cells' n. pattern cells, Q, (AC3.consistency cells Q).
  apply consistency_ind; clear cells Q.
  - intros cells cells' n [= <- <-]. split; [apply evolves_refl|auto].
  - discriminate.
  - intros cells Q var c1 Hpass cells' n [= <- <-].
    split; [|auto]. now destruct (pass_evolves _ _ _ _ Hpass).
  - intros cells Q var c1 new Hpass IH cells' n Hrest.
    destruct (IH _ _ Hrest) as [Hev Hn]. split; [|exact Hn].
    eapply evolves_trans; [|exact Hev]. now destruct (pass_evolves _ _ _ _ Hpass).
Qed.

(** The positions [ts] are distinct and none is [(row, column)]: every one
    of them is pruned by the same domain [own], once. *)
Lemma prune_all_spec cells row column own ts va :
  cell cells (row, column) = Some own ->
  (row, column) ∉ ts -> NoDup ts ->
  (forall t, t ∈ ts -> is_Some (cell cells t)) ->
  (exists cells' va',
     prune_all cells row column ts va = Ret (cells', (Some va', false)) /\
     (forall t d, t ∈ ts -> cell cells t = Some d ->
        Str.replace d own "" <> "" /\ cell cells' t = Some (Str.replace d own "")) /\
     (forall q, q ∉ ts -> cell cells' q = cell cells q) /\
     (forall q, q ∈ va' <->
        q ∈ va \/ (q ∈ ts /\ exists d, cell cells q = Some d /\ 1 < Str.len d /\
                                  Str.len (Str.replace d own "") = 1))) \/
  (exists cells',
     prune_all cells row column ts va = Ret (cells', (None, true)) /\
     exists t d, t ∈ ts /\ cell cells t = Some d /\ Str.replace d own "" = "").
Proof.
  revert cells va. induction ts as [|[i j] ts IH]; intros cells va Hown Hnot Hnd Hin.
  - left. exists cells, va. simpl. split; [reflexivity|]. split; [|split].
    + intros t d Ht. now apply elem_of_nil in Ht.
    + reflexivity.
    + intros q. split; [auto|]. intros [H|[H _]]; [exact H|]. now apply elem_of_nil in H.
  - apply not_elem_of_cons in Hnot as [Hne Hnot].
    apply NoDup_cons in Hnd as [Hfresh Hnd].
    cbn [prune_all].
    pose proof (prune_cases cells row column i j va) as Hp.
    destruct (AC3.prune cells row column i j va) as [[[cells1 va1]|]| |]; simpl.
    + destruct Hp as (d & own' & Hd & Hown' & Hnz & Hset & Hva).
      assert (own' = own) by congruence. subst own'.
      destruct (set_Ret _ _ _ _ _ Hset) as (_ & Hnew & Hother).
      assert (Hown1 : cell cells1 (row, column) = Some own).
      { rewrite Hother; [assumption|congruence]. }
      assert (Hsame : forall t, t ∈ ts -> cell cells1 t = cell cells t).
      { intros t Ht. apply Hother. intros ->. contradiction. }
      destruct (IH cells1 va1 Hown1 Hnot Hnd) as
        [(cells' & va' & Hrun & Hts & Hrest & Hva')|(cells' & Hrun & t & dt & Ht & Hdt & Hz)].
      { intros t Ht. rewrite Hsame by assumption. apply Hin. now right. }
      * left. exists cells', va'. split; [exact Hrun|]. split; [|split].
        -- intros t dt [->|Ht]%elem_of_cons Hdt.
           ++ assert (dt = d) by congruence. subst dt. split; [assumption|].
              rewrite Hrest by assumption. exact Hnew.
           ++ apply Hts; [assumption|]. now rewrite Hsame.
        -- intros q [Hq1 Hq2]%not_elem_of_cons. rewrite Hrest by assumption.
           now apply Hother.
        -- intros q. rewrite Hva'. subst va1. rewrite elem_of_app.
           split.
           ++ intros [[H|H]|(Hq & dq & Hdq & Hlt & Hone)].
              ** now left.
              ** right.
                 destruct (Nat.eqb_spec (Str.len (Str.replace d own "")) 1) as [E1|E1];
                 destruct (Nat.ltb_spec 1 (Str.len d)) as [E2|E2]; simpl in H;
                   try (now apply elem_of_nil in H).
                 apply list_elem_of_singleton in H. subst q.
                 split; [now left|]. eauto.
              ** right. split; [now right|]. exists dq.
                 rewrite <- Hsame by assumption. auto.
           ++ intros [H|([->|Hq]%elem_of_cons & dq & Hdq & Hlt & Hone)].
              ** now left; left.
              ** left; right. assert (dq = d) by congruence. subst dq.
                 apply Nat.eqb_eq in Hone. apply Nat.ltb_lt in Hlt.
                 rewrite Hone, Hlt. simpl. now apply list_elem_of_singleton.
              ** right. split; [assumption|]. exists dq.
                 rewrite Hsame by assumption. auto.
      * right. exists cells'. split; [exact Hrun|]. exists t, dt.
        split; [now right|]. rewrite <- Hsame by assumption. auto.
    + right. exists cells. split; [reflexivity|].
      destruct Hp as (d & own' & Hd & Hown' & Hz).
      assert (own' = own) by congruence. subst own'.
      exists (i, j), d. split; [now left|auto].
    + exfalso. destruct Hp as (_ & [Hn|Hn]); [|congruence].
      destruct (Hin (i, j)) as [d Hd]; [now left|congruence].
    + contradiction.
Qed.

(** ** The peers of a position *)

Lemma elem_of_row_peers var q :
  q ∈ row_peers var <-> q.1 = var.1 /\ q.2 < 9 /\ q.2 <> var.2.
Proof.
  unfold row_peers, range. rewrite list_elem_of_In, in_flat_map. split.
  - intros (j & Hj & Hq). apply in_seq in Hj.
    destruct (Nat.eqb_spec j var.2); [contradiction|].
    destruct Hq as [<-|[]]. simpl. lia.
  - intros (H1 & H2 & H3). exists q.2. split; [apply in_seq; lia|].
    destruct (Nat.eqb_spec q.2 var.2); [contradiction|].
    left. destruct q; simpl in *. now subst.
Qed.

Lemma elem_of_column_peers var q :
  q ∈ column_peers var <-> q.2 = var.2 /\ q.1 < 9 /\ q.1 <> var.1.
Proof.
  unfold column_peers, range. rewrite list_elem_of_In, in_flat_map. split.
  - intros (i & Hi & Hq). apply in_seq in Hi.
    destruct (Nat.eqb_spec i var.1); [contradiction|].
    destruct Hq as [<-|[]]. simpl. lia.
  - intros (H1 & H2 & H3). exists q.1. split; [apply in_seq; lia|].
    destruct (Nat.eqb_spec q.1 var.1); [contradiction|].
    left. destruct q; simpl in *. now subst.
Qed.

Lemma in_nested rows cols q : In q (nested rows cols) <-> In q.1 rows /\ In q.2 cols.
Proof.
  unfold nested. rewrite in_flat_map. split.
  - intros (i & Hi & Hq). apply in_map_iff in Hq as (j & <- & Hj). auto.
  - intros [H1 H2]. exists q.1. split; [assumption|].
    apply in_map_iff. exists q.2. split; [now destruct q|assumption].
Qed.

Lemma elem_of_unit_peers var q :
  q ∈ unit_peers var <->
  q.1 / 3 = var.1 / 3 /\ q.2 / 3 = var.2 / 3 /\ q <> var.
Proof.
  unfold unit_peers, range_from. rewrite list_elem_of_In, in_flat_map. split.
  - intros (p & Hp & Hq). apply in_nested in Hp as [H1 H2].
    apply in_seq in H1. apply in_seq in H2.
    destruct ((p.1 =? var.1) && (p.2 =? var.2)) eqn:E; [contradiction|].
    destruct Hq as [<-|[]].
    split; [|split].
    + symmetry. apply Nat.div_unique with (r := p.1 - var.1 / 3 * 3); lia.
    + symmetry. apply Nat.div_unique with (r := p.2 - var.2 / 3 * 3); lia.
    + intros ->. rewrite !Nat.eqb_refl in E. discriminate.
  - intros (H1 & H2 & H3). exists q. split.
    + apply in_nested. rewrite !in_seq.
      pose proof (Nat.div_mod_eq q.1 3). pose proof (Nat.div_mod_eq q.2 3).
      pose proof (Nat.mod_upper_bound q.1 3). pose proof (Nat.mod_upper_bound q.2 3).
      lia.
    + destruct (Nat.eqb_spec q.1 var.1) as [E1|E1], (Nat.eqb_spec q.2 var.2) as [E2|E2];
        simpl; try now left.
      exfalso. apply H3. destruct q, var; simpl in *; congruence.
Qed.

Lemma elem_of_peers var q :
  q ∈ peers var <-> q ∈ row_peers var \/ q ∈ column_peers var \/ q ∈ unit_peers var.
Proof. unfold peers. now rewrite !elem_of_app. Qed.

Lemma peers_irrefl var : var ∉ peers var.
Proof.
  rewrite elem_of_peers, elem_of_row_peers, elem_of_column_peers, elem_of_unit_peers.
  intuition.
Qed.

Lemma peers_in_range var q : in_range var -> q ∈ peers var -> in_range q.
Proof.
  unfold in_range.
  rewrite elem_of_peers, elem_of_row_peers, elem_of_column_peers, elem_of_unit_peers.
  intros [Hv1 Hv2] [H|[H|H]]; try lia.
  destruct H as (H1 & H2 & _).
  pose proof (Nat.div_mod_eq q.1 3). pose proof (Nat.div_mod_eq q.2 3).
  pose proof (Nat.mod_upper_bound q.1 3). pose proof (Nat.mod_upper_bound q.2 3).
  pose proof (Nat.div_mod_eq var.1 3). pose proof (Nat.div_mod_eq var.2 3).
  pose proof (Nat.mod_upper_bound var.1 3). pose proof (Nat.mod_upper_bound var.2 3).
  lia.
Qed.

Lemma peers_sym var q : in_range var -> q ∈ peers var -> var ∈ peers q.
Proof.
  intros Hv Hq. pose proof (peers_in_range _ _ Hv Hq) as Hr. revert Hq.
  unfold in_range in *.
  rewrite !elem_of_peers, !elem_of_row_peers, !elem_of_column_peers, !elem_of_unit_peers.
  intros [H|[H|H]]; [left|right; left|right; right]; intuition (try lia; congruence).
Qed.

Lemma in_range_nested p : in_range p <-> In p (nested (range 9) (range 9)).
Proof.
  unfold in_range, range. rewrite in_nested, !in_seq. lia.
Qed.

Lemma flat_map_NoDup {A} (f : A -> bool) (l : list A) :
  NoDup l -> NoDup (flat_map (fun x => if f x then [] else [x]) l).
Proof.
  induction 1 as [|x l Hx Hl IH]; simpl; [constructor|].
  destruct (f x) eqn:E; simpl; [exact IH|].
  constructor; [|exact IH].
  rewrite list_elem_of_In, in_flat_map. intros (y & Hy & Hin).
  destruct (f y); [contradiction|]. destruct Hin as [->|[]].
  apply Hx. now apply list_elem_of_In.
Qed.

Lemma NoDup_nested rows cols : NoDup rows -> NoDup cols -> NoDup (nested rows cols).
Proof.
  intros Hr Hc. unfold nested. induction Hr as [|i rows Hi Hr IH]; simpl; [constructor|].
  apply NoDup_app. split; [|split; [|exact IH]].
  - apply NoDup_fmap_2; [|exact Hc]. intros j j' [=]. assumption.
  - intros q Hq Hq'. apply list_elem_of_In in Hq, Hq'.
    apply in_map_iff in Hq as (j & <- & _).
    apply in_flat_map in Hq' as (i' & Hi' & Hq').
    apply in_map_iff in Hq' as (j' & [= -> _] & _).
    apply Hi. now apply list_elem_of_In.
Qed.

Lemma NoDup_row_peers var : NoDup (row_peers var).
Proof.
  unfold row_peers.
  assert (H : forall js, NoDup js ->
            NoDup (flat_map (fun j => if j =? var.2 then [] else [(var.1, j)]) js)).
  { induction 1 as [|j js Hj Hjs IH]; simpl; [constructor|].
    destruct (j =? var.2); simpl; [exact IH|]. constructor; [|exact IH].
    rewrite list_elem_of_In, in_flat_map. intros (y & Hy & Hin).
    destruct (y =? var.2); [contradiction|]. destruct Hin as [[= ->]|[]].
    apply Hj. now apply list_elem_of_In. }
  apply H. apply NoDup_ListNoDup, seq_NoDup.
Qed.

Lemma NoDup_column_peers var : NoDup (column_peers var).
Proof.
  unfold column_peers.
  assert (H : forall js, NoDup js ->
            NoDup (flat_map (fun i => if i =? var.1 then [] else [(i, var.2)]) js)).
  { induction 1 as [|j js Hj Hjs IH]; simpl; [constructor|].
    destruct (j =? var.1); simpl; [exact IH|]. constructor; [|exact IH].
    rewrite list_elem_of_In, in_flat_map. intros (y & Hy & Hin).
    destruct (y =? var.1); [contradiction|]. destruct Hin as [[= ->]|[]].
    apply Hj. now apply list_elem_of_In. }
  apply H. apply NoDup_ListNoDup, seq_NoDup.
Qed.

Lemma NoDup_unit_peers var : NoDup (unit_peers var).
Proof.
  unfold unit_peers.
  apply (flat_map_NoDup (fun q : pos => (q.1 =? var.1) && (q.2 =? var.2))).
  apply NoDup_nested; apply NoDup_ListNoDup, seq_NoDup.
Qed.

(** ** A pass from an assigned position *)

(** Under a nine by nine grid no removal raises. *)
Lemma prune_all_Ret cells row column ts va :
  shape9 cells -> in_range (row, column) -> Forall in_range ts ->
  exists cells' r, prune_all cells row column ts va = Ret (cells', r).
Proof.
  intros Hs Hrc Hts. revert cells va Hs.
  induction Hts as [|[i j] ts Hij Hts IH]; intros cells va Hs; simpl; [eauto|].
  pose proof (prune_cases cells row column i j va) as Hp.
  destruct (AC3.prune cells row column i j va) as [[[cells1 va1]|]| |]; simpl.
  - destruct Hp as (d & own & Hd & Hown & Hnz & Hset & Hva).
    apply IH. eapply evolves_shape9; [|exact Hs].
    eapply evolves_set; [exact Hd| |exact Hset].
    apply replace_shrunk. now rewrite len_0.
  - eauto.
  - exfalso. destruct Hp as (_ & [Hn|Hn]).
    + destruct (proj2 (shape9_cell cells (i, j) Hs) Hij); congruence.
    + destruct (proj2 (shape9_cell cells (row, column) Hs) Hrc); congruence.
  - contradiction.
Qed.

Lemma stripped_refl c cells : stripped c cells cells.
Proof. intros q. now left. Qed.

Lemma stripped_trans c c1 c2 c3 : stripped c c1 c2 -> stripped c c2 c3 -> stripped c c1 c3.
Proof.
  intros H12 H23 q. destruct (H23 q) as [E|(d2 & Hd2 & Hd3 & Hne)].
  - rewrite E. apply H12.
  - destruct (H12 q) as [E|(d1 & Hd1 & Hd2' & Hne')].
    + right. exists d2. rewrite <- E. auto.
    + right. exists d1. assert (d2 = strip c d1) by congruence. subst d2.
      rewrite strip_idem in Hd3. auto.
Qed.

Lemma prune_all_stripped cells row column c ts va cells' r :
  cell cells (row, column) = Some (String c "") -> (row, column) ∉ ts ->
  prune_all cells row column ts va = Ret (cells', r) ->
  stripped c cells cells'.
Proof.
  revert cells va. induction ts as [|[i j] ts IH]; intros cells va Hown Hnot; simpl.
  - intros [= <- <-]. apply stripped_refl.
  - apply not_elem_of_cons in Hnot as [Hne Hnot].
    pose proof (prune_cases cells row column i j va) as Hp.
    destruct (AC3.prune cells row column i j va) as [[[cells1 va1]|]| |]; simpl;
      try discriminate.
    + destruct Hp as (d & own' & Hd & Hown' & Hnz & Hset & Hva).
      assert (own' = String c "") by congruence. subst own'.
      destruct (set_Ret _ _ _ _ _ Hset) as (_ & Hnew & Hother).
      intros Hrest. eapply stripped_trans; [|eapply IH; [| |exact Hrest]].
      * intros q. destruct (decide (q = (i, j))) as [->|Hq].
        -- right. exists d. auto.
        -- left. now apply Hother.
      * rewrite Hother; [assumption|congruence].
      * assumption.
    + intros [= <- <-]. apply stripped_refl.
Qed.

(** A stripped domain that is empty was emptied from the original. *)
Lemma stripped_empty c cells cells' t d' :
  stripped c cells cells' -> cell cells' t = Some d' -> strip c d' = "" ->
  cell cells t = Some d'.
Proof.
  intros Hst Hd' Hz. destruct (Hst t) as [E|(d & Hd & Hd1 & Hne)]; [congruence|].
  assert (d' = strip c d) by congruence. subst d'. rewrite strip_idem in Hz. contradiction.
Qed.

Lemma stripped_strip c cells cells' t d d' :
  stripped c cells cells' -> cell cells t = Some d -> cell cells' t = Some d' ->
  strip c d' = strip c d.
Proof.
  intros Hst Hd Hd'. destruct (Hst t) as [E|(d0 & Hd0 & Hd1 & Hne)]; [congruence|].
  assert (d0 = d) by congruence. subst d0.
  assert (d' = strip c d) by congruence. subst d'. apply strip_idem.
Qed.

(** A domain of several symbols that one more strip leaves with one symbol
    has not been stripped yet. *)
Lemma stripped_fresh c cells cells' t d d' :
  stripped c cells cells' -> cell cells t = Some d -> cell cells' t = Some d' ->
  1 < Str.len d' -> Str.len (strip c d') = 1 -> d' = d.
Proof.
  intros Hst Hd Hd' Hlt Hone. destruct (Hst t) as [E|(d0 & Hd0 & Hd1 & Hne)]; [congruence|].
  assert (d0 = d) by congruence. subst d0.
  assert (d' = strip c d) by congruence. subst d'. rewrite strip_idem in Hone. lia.
Qed.

Section Pass.

Variables (cells : Cells) (var : pos) (c : ascii).
Hypothesis Hshape : shape9 cells.
Hypothesis Hvar : in_range var.
Hypothesis Hown : cell cells var = Some (String c "").

Let row := var.1.
Let column := var.2.

(** The three removals of the pass, one after the other. *)
Lemma pass_phases :
  exists c1 r1 c2 r2 c3 r3,
    prune_all cells row column (row_peers var) [] = Ret (c1, r1) /\
    prune_all c1 row column (column_peers var) [] = Ret (c2, r2) /\
    prune_all c2 row column (unit_peers var) [] = Ret (c3, r3) /\
    shape9 c1 /\ shape9 c2 /\ shape9 c3 /\
    stripped c cells c1 /\ stripped c c1 c2 /\ stripped c c2 c3 /\
    cell c1 var = Some (String c "") /\ cell c2 var = Some (String c "").
Proof.
  assert (Hrc : in_range (row, column)) by (now destruct var).
  assert (Hnot : forall ts, ts ⊆ peers var -> (row, column) ∉ ts).
  { intros ts Hsub Hin. apply (peers_irrefl var). apply Hsub.
    subst row column. now destruct var. }
  assert (Hrange : forall ts, ts ⊆ peers var -> Forall in_range ts).
  { intros ts Hsub. apply Forall_forall. intros q Hq.
    eapply peers_in_range; [exact Hvar|]. apply Hsub. exact Hq. }
  assert (Hkeep : forall g g', evolves g g' -> cell g var = Some (String c "") ->
                               cell g' var = Some (String c "")).
  { intros g g' Hev Hg. destruct (evolves_cell _ _ _ _ Hev Hg) as (d' & Hd' & Hsh).
    rewrite Hd'. f_equal. now apply (shrunk_single _ _ Hsh). }
  assert (Hvar' : forall g, cell g var = cell g (row, column)).
  { intros g. subst row column. now destruct var. }
  assert (S1 : row_peers var ⊆ peers var).
  { intros q Hq. apply elem_of_peers. auto. }
  assert (S2 : column_peers var ⊆ peers var).
  { intros q Hq. apply elem_of_peers. auto. }
  assert (S3 : unit_peers var ⊆ peers var).
  { intros q Hq. apply elem_of_peers. auto. }
  destruct (prune_all_Ret cells row column (row_peers var) [] Hshape Hrc (Hrange _ S1))
    as (c1 & r1 & H1).
  destruct (prune_all_evolves _ _ _ _ _ _ _ H1) as (E1 & _).
  pose proof (evolves_shape9 _ _ E1 Hshape) as Hs1.
  destruct (prune_all_Ret c1 row column (column_peers var) [] Hs1 Hrc (Hrange _ S2))
    as (c2 & r2 & H2).
  destruct (prune_all_evolves _ _ _ _ _ _ _ H2) as (E2 & _).
  pose proof (evolves_shape9 _ _ E2 Hs1) as Hs2.
  destruct (prune_all_Ret c2 row column (unit_peers var) [] Hs2 Hrc (Hrange _ S3))
    as (c3 & r3 & H3).
  destruct (prune_all_evolves _ _ _ _ _ _ _ H3) as (E3 & _).
  pose proof (evolves_shape9 _ _ E3 Hs2) as Hs3.
  pose proof (Hkeep _ _ E1 Hown) as Hown1.
  pose proof (Hkeep _ _ E2 Hown1) as Hown2.
  exists c1, r1, c2, r2, c3, r3.
  refine (conj H1 (conj H2 (conj H3 (conj Hs1 (conj Hs2 (conj Hs3
           (conj _ (conj _ (conj _ (conj Hown1 Hown2)))))))))).
  - eapply prune_all_stripped; [|apply Hnot, S1|exact H1]. now rewrite <- Hvar'.
  - eapply prune_all_stripped; [|apply Hnot, S2|exact H2]. now rewrite <- Hvar'.
  - eapply prune_all_stripped; [|apply Hnot, S3|exact H3]. now rewrite <- Hvar'.
Qed.

(** A removal over some of the peers, from a grid already stripped. *)
Lemma phase_spec g ts va :
  shape9 g -> stripped c cells g -> cell g var = Some (String c "") ->
  ts ⊆ peers var -> NoDup ts ->
  (exists g' va',
     prune_all g row column ts va = Ret (g', (Some va', false)) /\
     (forall t d, t ∈ ts -> cell cells t = Some d ->
        strip c d <> "" /\ cell g' t = Some (strip c d)) /\
     (forall q, q ∉ ts -> cell g' q = cell g q) /\
     (forall q, q ∈ va' <->
        q ∈ va \/ (q ∈ ts /\ cell g q = cell cells q /\
                   exists d, cell cells q = Some d /\ 1 < Str.len d /\
                             Str.len (strip c d) = 1))) \/
  (exists g',
     prune_all g row column ts va = Ret (g', (None, true)) /\
     exists t d, t ∈ ts /\ cell cells t = Some d /\ strip c d = "").
Proof.
  intros Hs Hst Hg Hsub Hnd.
  assert (Hg' : cell g (row, column) = Some (String c "")).
  { subst row column. now destruct var. }
  assert (Hnot : (row, column) ∉ ts).
  { intros Hin. apply (peers_irrefl var). apply Hsub. subst row column. now destruct var. }
  assert (Hsome : forall t, t ∈ ts -> is_Some (cell g t)).
  { intros t Ht. apply (shape9_cell g t Hs).
    eapply peers_in_range; [exact Hvar|]. now apply Hsub. }
  assert (Horig : forall t, t ∈ ts -> is_Some (cell cells t)).
  { intros t Ht. apply (shape9_cell cells t Hshape).
    eapply peers_in_range; [exact Hvar|]. now apply Hsub. }
  destruct (prune_all_spec g row column (String c "") ts va Hg' Hnot Hnd Hsome)
    as [(g' & va' & Hrun & Hts & Hrest & Hva)|(g' & Hrun & t & d & Ht & Hd & Hz)].
  - left. exists g', va'. split; [exact Hrun|]. split; [|split; [exact Hrest|]].
    + intros t d Ht Hd. destruct (Hsome t Ht) as [d' Hd'].
      destruct (Hts t d' Ht Hd') as [Hne Hnew]. fold (strip c d') in Hne, Hnew.
      rewrite (stripped_strip _ _ _ _ _ _ Hst Hd Hd') in Hne, Hnew. auto.
    + intros q. rewrite Hva. split.
      * intros [H|(Hq & d' & Hd' & Hlt & Hone)]; [now left|]. right.
        split; [exact Hq|]. destruct (Horig q Hq) as [d Hd].
        fold (strip c d') in Hone.
        pose proof (stripped_fresh _ _ _ _ _ _ Hst Hd Hd' Hlt Hone). subst d'.
        split; [congruence|]. eauto.
      * intros [H|(Hq & Heq & d & Hd & Hlt & Hone)]; [now left|]. right.
        split; [exact Hq|]. exists d. rewrite Heq. auto.
  - right. exists g'. split; [exact Hrun|]. exists t, d. split; [exact Ht|].
    split; [|exact Hz]. eapply stripped_empty; eassumption.
Qed.

(** The pass succeeds and strips every peer, or some peer holds nothing but
    the symbol and the pass fails. *)
Lemma pass_spec :
  (exists cells' new,
     pass cells var = Ret (cells', Some new) /\
     (forall t d, t ∈ peers var -> cell cells t = Some d ->
        strip c d <> "" /\ cell cells' t = Some (strip c d)) /\
     (forall q, q ∉ peers var -> cell cells' q = cell cells q) /\
     (forall q, q ∈ new <->
        q ∈ peers var /\ exists d, cell cells q = Some d /\ 1 < Str.len d /\
                                   Str.len (strip c d) = 1)) \/
  (exists cells',
     pass cells var = Ret (cells', None) /\
     exists t d, t ∈ peers var /\ cell cells t = Some d /\ strip c d = "").
Proof.
  destruct pass_phases as
    (c1 & r1 & c2 & r2 & c3 & r3 & H1 & H2 & H3 & Hs1 & Hs2 & Hs3 &
     St1 & St2 & St3 & Hown1 & Hown2).
  assert (S1 : row_peers var ⊆ peers var).
  { intros q Hq. apply elem_of_peers. auto. }
  assert (S2 : column_peers var ⊆ peers var).
  { intros q Hq. apply elem_of_peers. auto. }
  assert (S3 : unit_peers var ⊆ peers var).
  { intros q Hq. apply elem_of_peers. auto. }
  pose proof (stripped_trans _ _ _ _ St1 St2) as St12.
  assert (Hpass : pass cells var =
            match r1.1, r2.1, r3.1 with
            | Some r, Some co, Some u => Ret (c3, Some (r ++ co ++ u))
            | _, _, _ => Ret (c3, None)
            end).
  { clear -H1 H2 H3. unfold row, column in *.
    unfold pass. rewrite remove_domain_row_eq, H1. simpl.
    destruct r1 as [o1 f1]. simpl.
    rewrite remove_domain_column_eq, H2. simpl.
    destruct r2 as [o2 f2]. simpl.
    rewrite remove_domain_unit_eq, H3. simpl.
    destruct r3 as [o3 f3]. simpl. reflexivity. }
  destruct (phase_spec cells (row_peers var) [] Hshape (stripped_refl _ _) Hown S1
              (NoDup_row_peers var))
    as [(g1 & l1 & R1 & T1 & K1 & V1)|(g1 & R1 & F1)];
    rewrite H1 in R1; injection R1 as <- ->.
  2:{ right. exists c3. split; [rewrite Hpass; reflexivity|].
      destruct F1 as (t & d & Ht & Hd & Hz). exists t, d. split; [now apply S1|auto]. }
  destruct (phase_spec c1 (column_peers var) [] Hs1 St1 Hown1 S2 (NoDup_column_peers var))
    as [(g2 & l2 & R2 & T2 & K2 & V2)|(g2 & R2 & F2)];
    rewrite H2 in R2; injection R2 as <- ->.
  2:{ right. exists c3. split; [rewrite Hpass; reflexivity|].
      destruct F2 as (t & d & Ht & Hd & Hz). exists t, d. split; [now apply S2|auto]. }
  destruct (phase_spec c2 (unit_peers var) [] Hs2 St12 Hown2 S3 (NoDup_unit_peers var))
    as [(g3 & l3 & R3 & T3 & K3 & V3)|(g3 & R3 & F3)];
    rewrite H3 in R3; injection R3 as <- ->.
  2:{ right. exists c3. split; [rewrite Hpass; reflexivity|].
      destruct F3 as (t & d & Ht & Hd & Hz). exists t, d. split; [now apply S3|auto]. }
  left. exists c3, (l1 ++ l2 ++ l3). split; [rewrite Hpass; reflexivity|].
  assert (Hfinal : forall t d, cell cells t = Some d ->
             (cell c1 t = Some (strip c d) \/ cell c2 t = Some (strip c d) \/
              cell c3 t = Some (strip c d)) -> cell c3 t = Some (strip c d)).
  { assert (Hkeep : forall g g' t d, stripped c g g' ->
              cell g t = Some (strip c d) -> cell g' t = Some (strip c d)).
    { intros g g' t d Hst Hg. destruct (Hst t) as [E|(d0 & Hd0 & Hd1 & _)]; [congruence|].
      assert (d0 = strip c d) by congruence. subst d0. now rewrite strip_idem in Hd1. }
    intros t d Hd [H|[H|H]]; [| |exact H].
    - eapply Hkeep; [exact St3|]. eapply Hkeep; [exact St2|]. exact H.
    - eapply Hkeep; [exact St3|]. exact H. }
  split; [|split].
  - intros t d Ht Hd. apply elem_of_peers in Ht as [Ht|[Ht|Ht]].
    + destruct (T1 t d Ht Hd). split; [assumption|]. apply Hfinal; auto.
    + destruct (T2 t d Ht Hd). split; [assumption|]. apply Hfinal; auto.
    + destruct (T3 t d Ht Hd). split; [assumption|]. apply Hfinal; auto.
  - intros q Hq. rewrite elem_of_peers in Hq.
    rewrite K3, K2, K1 by tauto. reflexivity.
  - intros q. rewrite !elem_of_app, V1, V2, V3, elem_of_peers. split.
    + intros [[H|(Hq & _ & Hd)]|[[H|(Hq & _ & Hd)]|[H|(Hq & _ & Hd)]]];
        try (now apply elem_of_nil in H); auto.
    + intros [Hq Hd].
      destruct (decide (q ∈ row_peers var)) as [Q1|Q1].
      { left. right. auto. }
      destruct (decide (q ∈ column_peers var)) as [Q2|Q2].
      { right; left. right. split; [assumption|]. split; [now apply K1|assumption]. }
      right; right. right. split; [tauto|]. split; [|assumption].
      rewrite K2, K1 by assumption. reflexivity.
Qed.

End Pass.

(** ** Reading a puzzle *)

Lemma well_formed_puzzleb_spec s : well_formed_puzzleb s = true -> well_formed_puzzle s.
Proof.
  unfold well_formed_puzzleb. rewrite andb_true_iff, forallb_forall.
  intros [H1 H2]. apply Nat.eqb_eq in H1. split; [exact H1|].
  apply Forall_forall. intros c Hc. apply list_elem_of_In in Hc.
  specialize (H2 c Hc). apply existsb_exists in H2 as (x & Hx & E).
  apply Ascii.eqb_eq in E. now subst.
Qed.

Lemma rows_of_short l : List.length l < 9 -> rows_of l = [].
Proof. intros H. unfold rows_of. now rewrite Nat.div_small. Qed.

Lemma rows_of_app r l : List.length r = 9 -> rows_of (r ++ l) = r :: rows_of l.
Proof.
  intros Hr. unfold rows_of. rewrite length_app, Hr.
  replace (9 + List.length l) with (1 * 9 + List.length l) by lia.
  rewrite Nat.div_add_l by lia. simpl seq. cbn [map].
  f_equal.
  - rewrite Nat.mul_0_r. simpl drop. now apply take_app_length'.
  - rewrite <- seq_shift, map_map. apply map_ext. intros k.
    replace (9 * S k) with (9 + 9 * k) by lia.
    now rewrite drop_app_add'.
Qed.

Lemma read_file_loop_spec s i row cells :
  List.length row < 9 -> i mod 9 = List.length row ->
  Grid.read_file_loop s i row cells = cells ++ rows_of (row ++ map domain_of (chars s)).
Proof.
  revert i row cells. induction s as [|p s IH]; intros i row cells Hrow Hi.
  - simpl. rewrite app_nil_r, rows_of_short by assumption. now rewrite app_nil_r.
  - cbn [Grid.read_file_loop chars list_ascii_of_string map].
    fold (chars s). fold (domain_of p).
    replace (if Ascii.eqb p "."%char then row ++ [Grid._complete_domain]
             else row ++ [String p ""]) with (row ++ [domain_of p])
      by (unfold domain_of; now destruct (Ascii.eqb p ".")).
    pose proof (Nat.div_mod_eq i 9) as D1.
    pose proof (Nat.div_mod_eq (i + 1) 9) as D2.
    pose proof (Nat.mod_upper_bound (i + 1) 9) as D3.
    unfold Grid._width.
    destruct (Nat.eqb_spec ((i + 1) mod 9) 0) as [E|E].
    + rewrite IH by (first [exact E|simpl; lia]).
      rewrite <- app_assoc. simpl.
      replace (row ++ domain_of p :: map domain_of (chars s))
        with ((row ++ [domain_of p]) ++ map domain_of (chars s))
        by (now rewrite <- app_assoc).
      rewrite rows_of_app; [reflexivity|]. rewrite length_app. cbn [List.length]. lia.
    + rewrite IH.
      * now rewrite <- app_assoc.
      * rewrite length_app. cbn [List.length]. lia.
      * rewrite length_app. cbn [List.length]. lia.
Qed.

Lemma read_file_spec s :
  Grid.read_file Grid.init s = rows_of (map domain_of (chars s)).
Proof.
  unfold Grid.read_file, Grid.init.
  rewrite read_file_loop_spec; [reflexivity|simpl; lia|reflexivity].
Qed.

Lemma rows_of_length l : List.length (rows_of l) = List.length l / 9.
Proof. unfold rows_of. now rewrite length_map, length_seq. Qed.

Lemma rows_of_lookup l i row :
  rows_of l !! i = Some row -> row = take 9 (drop (9 * i) l) /\ List.length row = 9.
Proof.
  unfold rows_of. rewrite list_lookup_fmap.
  destruct (seq 0 (List.length l / 9) !! i) as [k|] eqn:Hk; [|discriminate].
  apply lookup_seq in Hk as [-> Hlt]. simpl. intros [= <-]. split; [reflexivity|].
  rewrite length_take, length_drop.
  pose proof (Nat.div_mod_eq (List.length l) 9). lia.
Qed.

(** C4, as stated, fails: the input has 80 characters, and initialization
    returns a grid of eight rows instead of failing with MalformedPuzzle. *)
Lemma read_file_accepts_80_characters :
  String.length puzzle_of_80 = 80 /\
  ~ well_formed_puzzle puzzle_of_80 /\
  initialize puzzle_of_80 <> MalformedPuzzle /\
  exists cells, initialize puzzle_of_80 = Constructed cells /\ List.length cells = 8.
Proof.
  split; [reflexivity|]. split; [|split].
  - intros [Hlen _]. vm_compute in Hlen. discriminate.
  - discriminate.
  - eexists. split; reflexivity.
Qed.

(** C4, amended: grid initialization never fails with MalformedPuzzle.  For
    every input string it returns the grid whose rows are the complete groups
    of nine characters, in order, a ['.'] standing for the full domain and any
    other character, in the alphabet or not, for the domain of that one
    character; so the grid has as many rows as the length divided by nine,
    and the characters after the last complete group are dropped. *)
Theorem read_file_never_fails (string_puzzle : string) :
  initialize string_puzzle =
    Constructed (rows_of (map domain_of (chars string_puzzle))) /\
  initialize string_puzzle <> MalformedPuzzle /\
  List.length (Grid.read_file Grid.init string_puzzle) = String.length string_puzzle / 9 /\
  Forall (fun row => List.length row = 9) (Grid.read_file Grid.init string_puzzle).
Proof.
  unfold initialize. rewrite read_file_spec. split; [reflexivity|].
  split; [discriminate|]. split.
  - rewrite rows_of_length, length_map. unfold chars.
    f_equal. clear. induction string_puzzle as [|c s IH]; simpl; [reflexivity|].
    now rewrite IH.
  - apply Forall_lookup. intros i row Hrow. simpl.
    now destruct (rows_of_lookup _ _ _ Hrow).
Qed.

Lemma wf_grid_shape9 cells : wf_grid cells -> shape9 cells.
Proof.
  intros [Hlen Hrows]. split; [exact Hlen|].
  eapply Forall_impl; [exact Hrows|]. now intros row [H _].
Qed.

Lemma wf_grid_cell cells p d : wf_grid cells -> cell cells p = Some d -> wf_domain d.
Proof.
  intros [_ Hrows] Hd. unfold cell in Hd.
  destruct (cells !! p.1) as [row|] eqn:Hrow; [|discriminate].
  rewrite Forall_lookup in Hrows. destruct (Hrows _ _ Hrow) as [_ Hds].
  rewrite Forall_lookup in Hds. exact (Hds _ _ Hd).
Qed.

Lemma wf_grid_intro cells :
  shape9 cells -> (forall p d, cell cells p = Some d -> wf_domain d) -> wf_grid cells.
Proof.
  intros [Hlen Hrows] Hd. split; [exact Hlen|].
  apply Forall_lookup. intros i row Hrow. split.
  - rewrite Forall_lookup in Hrows. exact (Hrows _ _ Hrow).
  - apply Forall_lookup. intros j d Hj. apply (Hd (i, j)).
    unfold cell. simpl. now rewrite Hrow.
Qed.

Lemma wf_domainb_spec d : wf_domainb d = true -> wf_domain d.
Proof.
  unfold wf_domainb. rewrite !andb_true_iff, forallb_forall.
  intros [[H1 H2] H3]. apply Nat.leb_le in H1, H2. split; [lia|].
  apply Forall_forall. intros c Hc. apply list_elem_of_In in Hc.
  specialize (H3 c Hc). apply existsb_exists in H3 as (x & Hx & E).
  apply Ascii.eqb_eq in E. now subst.
Qed.

Lemma wf_domain_of p : In p (chars "123456789.") -> wf_domain (domain_of p).
Proof.
  intros Hp. simpl in Hp.
  repeat (destruct Hp as [<-|Hp]; [apply wf_domainb_spec; reflexivity|]).
  contradiction.
Qed.

Lemma read_file_wf s : well_formed_puzzle s -> wf_grid (Grid.read_file Grid.init s).
Proof.
  intros [Hlen Hchars]. rewrite read_file_spec.
  assert (Hl : List.length (map domain_of (chars s)) = 81).
  { rewrite length_map. unfold chars. rewrite <- Hlen. clear.
    induction s as [|c s IH]; simpl; [reflexivity|]. now rewrite IH. }
  split.
  - now rewrite rows_of_length, Hl.
  - apply Forall_lookup. intros i row Hrow.
    destruct (rows_of_lookup _ _ _ Hrow) as [-> Hnine]. split; [exact Hnine|].
    apply Forall_take, Forall_drop. apply Forall_fmap.
    eapply Forall_impl; [exact Hchars|]. intros p Hp. now apply wf_domain_of.
Qed.

(** ** Selecting a variable *)

Lemma get_domain cells i j :
  shape9 cells -> in_range (i, j) -> Grid.get cells i j = Ret (domain cells (i, j)).
Proof.
  intros Hs [Hi Hj]. destruct (shape9_get cells i j Hs Hi Hj) as (d & Hd & Hget).
  unfold domain. now rewrite Hd.
Qed.

Lemma positions_in_range : Forall in_range positions.
Proof. apply Forall_forall. intros p Hp. apply in_range_nested. now apply list_elem_of_In. Qed.

Lemma in_range_positions p : in_range p -> p ∈ positions.
Proof. intros Hp. apply list_elem_of_In. now apply in_range_nested. Qed.

Lemma complete_positions cells :
  complete cells <-> Forall (fun p => Str.len (domain cells p) = 1) positions.
Proof.
  rewrite Forall_forall. split.
  - intros H p Hp. apply H. apply in_range_nested. now apply list_elem_of_In.
  - intros H p Hp. apply H. now apply in_range_positions.
Qed.

Lemma positions_ranked :
  positions = map (fun k => (k / 9, k mod 9)) (seq 0 81).
Proof. vm_compute. reflexivity. Qed.

Lemma positions_lookup k p : positions !! k = Some p -> row_major p = k.
Proof.
  rewrite positions_ranked, list_lookup_fmap.
  destruct (seq 0 81 !! k) as [k'|] eqn:Hk; [|discriminate].
  apply lookup_seq in Hk as [-> _]. cbn [fmap option_fmap option_map Nat.add].
  intros E. assert (Hp : p = (k / 9, k mod 9)) by congruence. subst p.
  unfold row_major. cbn [fst snd]. pose proof (Nat.div_mod_eq k 9). lia.
Qed.

(** Positions before [p] in the scan have a smaller rank, those after it a
    larger one. *)
Lemma positions_split before p after :
  positions = before ++ p :: after ->
  (forall q, q ∈ before -> row_major q < row_major p) /\
  (forall q, q ∈ after -> row_major p < row_major q).
Proof.
  intros Hsplit.
  assert (Hp : row_major p = List.length before).
  { apply positions_lookup. rewrite Hsplit. now apply list_lookup_middle. }
  split.
  - intros q Hq. apply list_elem_of_lookup in Hq as [k Hk].
    pose proof (lookup_lt_Some _ _ _ Hk) as Hlt.
    rewrite (positions_lookup k q); [lia|].
    rewrite Hsplit. now rewrite lookup_app_l.
  - intros q Hq. apply list_elem_of_lookup in Hq as [k Hk].
    rewrite (positions_lookup (List.length before + S k) q); [lia|].
    rewrite Hsplit. rewrite lookup_app_r by lia.
    replace (List.length before + S k - List.length before) with (S k) by lia.
    exact Hk.
Qed.

Lemma first_available_scan cells ps :
  shape9 cells -> Forall in_range ps ->
  (exists before p after,
     ps = before ++ p :: after /\
     Forall (fun q => Str.len (domain cells q) <= 1) before /\
     1 < Str.len (domain cells p) /\
     FirstAvailable.select_variable_loop cells ps = Ret (PyTuple p.1 p.2)) \/
  (Forall (fun q => Str.len (domain cells q) <= 1) ps /\
   FirstAvailable.select_variable_loop cells ps = Ret PyNone).
Proof.
  intros Hs Hps. induction Hps as [|[i j] ps Hij Hps IH].
  - right. split; [constructor|reflexivity].
  - cbn [FirstAvailable.select_variable_loop]. rewrite get_domain by assumption. simpl.
    destruct (Nat.ltb_spec 1 (Str.len (domain cells (i, j)))) as [Hlt|Hle].
    + left. exists [], (i, j), ps. repeat split; [constructor|exact Hlt].
    + destruct IH as [(before & p & after & -> & Hb & Hp & Hrun)|[Hall Hrun]].
      * left. exists ((i, j) :: before), p, after.
        repeat split; [constructor; assumption|exact Hp|exact Hrun].
      * right. split; [constructor; assumption|exact Hrun].
Qed.

Lemma mrv_scan cells ps :
  shape9 cells -> Forall in_range ps ->
  forall cur sm,
  exists cur',
    MRV.select_variable_loop cells ps cur sm = Ret (PyTuple cur'.1 cur'.2) /\
    ((cur' = cur /\
      Forall (fun q => 1 < Str.len (domain cells q) -> sm <= Str.len (domain cells q)) ps) \/
     (exists before after,
        ps = before ++ cur' :: after /\
        1 < Str.len (domain cells cur') /\ Str.len (domain cells cur') < sm /\
        Forall (fun q => 1 < Str.len (domain cells q) ->
                         Str.len (domain cells cur') < Str.len (domain cells q)) before /\
        Forall (fun q => 1 < Str.len (domain cells q) ->
                         Str.len (domain cells cur') <= Str.len (domain cells q)) after)).
Proof.
  intros Hs Hps. induction Hps as [|[i j] ps Hij Hps IH]; intros cur sm.
  - exists cur. split; [reflexivity|]. left. split; [reflexivity|constructor].
  - cbn [MRV.select_variable_loop]. rewrite get_domain by assumption. simpl.
    set (n := Str.len (domain cells (i, j))).
    destruct (Nat.ltb_spec 1 n) as [H1|H1]; [destruct (Nat.ltb_spec n sm) as [H2|H2]|].
    + destruct (IH (i, j) n) as (cur' & Hrun & [[-> Hall]|Hfound]).
      * exists (i, j). split; [exact Hrun|]. right. exists [], ps.
        repeat split; [exact H1|exact H2|constructor|exact Hall].
      * destruct Hfound as (before & after & -> & Hc1 & Hc2 & Hb & Ha).
        exists cur'. split; [exact Hrun|]. right. exists ((i, j) :: before), after.
        repeat split; [exact Hc1|lia| |exact Ha].
        constructor; [intros _; exact Hc2|exact Hb].
    + destruct (IH cur sm) as (cur' & Hrun & [[-> Hall]|Hfound]).
      * exists cur. split; [exact Hrun|]. left. split; [reflexivity|].
        constructor; [intros _; exact H2|exact Hall].
      * destruct Hfound as (before & after & -> & Hc1 & Hc2 & Hb & Ha).
        exists cur'. split; [exact Hrun|]. right. exists ((i, j) :: before), after.
        repeat split; [exact Hc1|exact Hc2| |exact Ha].
        constructor; [intros _; fold n; lia|exact Hb].
    + destruct (IH cur sm) as (cur' & Hrun & [[-> Hall]|Hfound]).
      * exists cur. split; [exact Hrun|]. left. split; [reflexivity|].
        constructor; [fold n; lia|exact Hall].
      * destruct Hfound as (before & after & -> & Hc1 & Hc2 & Hb & Ha).
        exists cur'. split; [exact Hrun|]. right. exists ((i, j) :: before), after.
        repeat split; [exact Hc1|exact Hc2| |exact Ha].
        constructor; [fold n; lia|exact Hb].
Qed.

Lemma wf_grid_domain cells p : wf_grid cells -> in_range p -> wf_domain (domain cells p).
Proof.
  intros Hwf Hp. destruct (proj2 (shape9_cell cells p (wf_grid_shape9 _ Hwf)) Hp) as [d Hd].
  unfold domain. rewrite Hd. simpl. eapply wf_grid_cell; eassumption.
Qed.

(** What [FirstAvailable] returns on a well-formed grid. *)
Lemma first_available_spec cells :
  wf_grid cells ->
  (complete cells /\ FirstAvailable.select_variable cells = Ret PyNone) \/
  (exists p, in_range p /\ 1 < Str.len (domain cells p) /\
     FirstAvailable.select_variable cells = Ret (PyTuple p.1 p.2) /\
     forall q, in_range q -> row_major q < row_major p -> Str.len (domain cells q) = 1).
Proof.
  intros Hwf. pose proof (wf_grid_shape9 _ Hwf) as Hs.
  unfold FirstAvailable.select_variable, Grid.get_width, Grid._width.
  fold positions.
  destruct (first_available_scan cells positions Hs positions_in_range)
    as [(before & p & after & Hsplit & Hb & Hp & Hrun)|[Hall Hrun]].
  - right. exists p.
    assert (Hin : in_range p).
    { pose proof positions_in_range as H. rewrite Hsplit in H.
      apply Forall_app in H as [_ H]. now inversion H. }
    repeat split; try assumption; try apply Hin.
    intros q Hq Hlt.
    assert (Hqb : q ∈ before).
    { pose proof (in_range_positions q Hq) as Hqp. rewrite Hsplit in Hqp.
      destruct (positions_split _ _ _ Hsplit) as [_ Hafter].
      apply elem_of_app in Hqp as [H|H]; [exact H|].
      apply elem_of_cons in H as [->|H]; [lia|]. specialize (Hafter _ H). lia. }
    rewrite Forall_forall in Hb. specialize (Hb _ Hqb).
    destruct (wf_grid_domain cells q Hwf Hq) as [Hlen _]. lia.
  - left. split; [|exact Hrun]. intros p Hp.
    rewrite Forall_forall in Hall. specialize (Hall _ (in_range_positions p Hp)).
    destruct (wf_grid_domain cells p Hwf Hp) as [Hlen _]. lia.
Qed.

(** What [MRV] returns on a well-formed grid. *)
Lemma mrv_spec cells :
  wf_grid cells ->
  (complete cells /\ MRV.select_variable cells = Ret (PyTuple 10 10)) \/
  (exists p, in_range p /\ 1 < Str.len (domain cells p) /\
     MRV.select_variable cells = Ret (PyTuple p.1 p.2) /\
     forall q, in_range q -> 1 < Str.len (domain cells q) ->
       Str.len (domain cells p) <= Str.len (domain cells q) /\
       (Str.len (domain cells q) = Str.len (domain cells p) ->
        row_major p <= row_major q)).
Proof.
  intros Hwf. pose proof (wf_grid_shape9 _ Hwf) as Hs.
  unfold MRV.select_variable, Grid.get_width, Grid._width. fold positions.
  destruct (mrv_scan cells positions Hs positions_in_range (10, 10) 10)
    as (cur' & Hrun & [[-> Hall]|(before & after & Hsplit & Hc1 & Hc2 & Hb & Ha)]).
  - left. split; [|exact Hrun]. intros p Hp.
    rewrite Forall_forall in Hall. specialize (Hall _ (in_range_positions p Hp)).
    destruct (wf_grid_domain cells p Hwf Hp) as [Hlen _]. lia.
  - right. exists cur'.
    assert (Hin : in_range cur').
    { pose proof positions_in_range as H. rewrite Hsplit in H.
      apply Forall_app in H as [_ H]. now inversion H. }
    repeat split; try assumption; try apply Hin.
    + pose proof (in_range_positions q H) as Hqp. rewrite Hsplit in Hqp.
      rewrite Forall_forall in Hb, Ha.
      apply elem_of_app in Hqp as [Hq|Hq]; [specialize (Hb _ Hq H0); lia|].
      apply elem_of_cons in Hq as [->|Hq]; [lia|]. now apply Ha.
    + intros Heq. pose proof (in_range_positions q H) as Hqp. rewrite Hsplit in Hqp.
      destruct (positions_split _ _ _ Hsplit) as [_ Hafter].
      rewrite Forall_forall in Hb.
      apply elem_of_app in Hqp as [Hq|Hq]; [specialize (Hb _ Hq H0); lia|].
      apply elem_of_cons in Hq as [->|Hq]; [lia|]. specialize (Hafter _ Hq). lia.
Qed.

Lemma complete_not_several cells p :
  complete cells -> in_range p -> ~ 1 < Str.len (domain cells p).
Proof. intros Hc Hp. rewrite (Hc p Hp). lia. Qed.

Lemma completeb_spec cells : completeb cells = true <-> complete cells.
Proof.
  unfold completeb. rewrite complete_positions, forallb_forall, Forall_forall.
  split; intros H p Hp.
  - apply Nat.eqb_eq, H. now apply list_elem_of_In.
  - apply Nat.eqb_eq, H. now apply list_elem_of_In.
Qed.

Lemma wf_solved_grid : wf_grid solved_grid.
Proof. apply read_file_wf, well_formed_puzzleb_spec. reflexivity. Qed.

Lemma wf_easy_grid : wf_grid easy_grid.
Proof. apply read_file_wf, well_formed_puzzleb_spec. reflexivity. Qed.

Lemma complete_solved_grid : complete solved_grid.
Proof. apply completeb_spec. reflexivity. Qed.

(** C7, as stated, fails: on a complete grid MRV returns the tuple (10, 10),
    not the none result. *)
Lemma mrv_returns_a_tuple_on_a_complete_grid :
  wf_grid solved_grid /\ complete solved_grid /\
  select_variable MRV solved_grid = Ret (PyTuple 10 10) /\
  select_variable MRV solved_grid <> Ret PyNone.
Proof.
  split; [exact wf_solved_grid|]. split; [exact complete_solved_grid|].
  split; [vm_compute; reflexivity|]. vm_compute. discriminate.
Qed.

(** C7, amended: on a grid of nine rows of nine domains of one to nine
    symbols, FirstAvailable returns None, and MRV returns the tuple (10, 10),
    which is outside the grid, and never None, if and only if the grid is
    complete; whenever some cell has a domain of more than one symbol, both
    return the position of such a cell. *)
Theorem select_variable_none_iff_complete (cells : Cells) :
  wf_grid cells ->
  (select_variable FirstAvailable cells = Ret PyNone <-> complete cells) /\
  (select_variable MRV cells = Ret (PyTuple 10 10) <-> complete cells) /\
  select_variable MRV cells <> Ret PyNone /\
  forall var_selector,
    (exists p, in_range p /\ 1 < Str.len (domain cells p)) ->
    exists i j, select_variable var_selector cells = Ret (PyTuple i j) /\
                in_range (i, j) /\ 1 < Str.len (domain cells (i, j)).
Proof.
  intros Hwf. simpl.
  destruct (first_available_spec cells Hwf) as [[Hc1 Hf]|(p1 & Hp1 & Hl1 & Hf & _)];
  destruct (mrv_spec cells Hwf) as [[Hc2 Hm]|(p2 & Hp2 & Hl2 & Hm & _)];
    try (exfalso; eapply complete_not_several; eassumption).
  - rewrite Hf, Hm. repeat split; try tauto; try discriminate.
    intros sel (p & Hp & Hl). exfalso. eapply complete_not_several; eassumption.
  - rewrite Hf, Hm.
    assert (Hnc : ~ complete cells).
    { intros Hc. eapply complete_not_several; eassumption. }
    split; [split; [discriminate|tauto]|].
    split. { split; [|tauto]. intros [= E1 E2]. destruct Hp2. lia. }
    split; [discriminate|].
    intros sel _. destruct sel; simpl.
    + exists p1.1, p1.2. rewrite Hf. now destruct p1.
    + exists p2.1, p2.2. rewrite Hm. now destruct p2.
Qed.

Lemma select_variable_none_iff_complete_witness :
  wf_grid easy_grid /\
  exists i j, select_variable MRV easy_grid = Ret (PyTuple i j) /\
              in_range (i, j) /\ 1 < Str.len (domain easy_grid (i, j)).
Proof.
  split; [exact wf_easy_grid|].
  apply (select_variable_none_iff_complete easy_grid wf_easy_grid).
  exists (0, 2). vm_compute. repeat split; lia.
Defined.

(** C8: on a grid of nine rows of nine domains of one to nine symbols that is
    not complete, MRV returns a position whose domain has more than one
    symbol, no more symbols than any other such domain, and that comes first
    in row-major order among the positions with as few. *)
Theorem mrv_selects_first_minimum (cells : Cells) :
  wf_grid cells -> ~ complete cells ->
  exists i j,
    MRV.select_variable cells = Ret (PyTuple i j) /\
    in_range (i, j) /\ 1 < Str.len (domain cells (i, j)) /\
    forall q, in_range q -> 1 < Str.len (domain cells q) ->
      Str.len (domain cells (i, j)) <= Str.len (domain cells q) /\
      (Str.len (domain cells q) = Str.len (domain cells (i, j)) ->
       row_major (i, j) <= row_major q).
Proof.
  intros Hwf Hnc.
  destruct (mrv_spec cells Hwf) as [[Hc _]|(p & Hp & Hl & Hm & Hmin)]; [contradiction|].
  exists p.1, p.2. destruct p as [i j]. auto.
Qed.

Lemma mrv_selects_first_minimum_witness :
  wf_grid easy_grid /\ ~ complete easy_grid /\
  exists i j,
    MRV.select_variable easy_grid = Ret (PyTuple i j) /\
    in_range (i, j) /\ 1 < Str.len (domain easy_grid (i, j)) /\
    forall q, in_range q -> 1 < Str.len (domain easy_grid q) ->
      Str.len (domain easy_grid (i, j)) <= Str.len (domain easy_grid q) /\
      (Str.len (domain easy_grid q) = Str.len (domain easy_grid (i, j)) ->
       row_major (i, j) <= row_major q).
Proof.
  assert (Hnc : ~ complete easy_grid).
  { intros Hc%completeb_spec. vm_compute in Hc. discriminate. }
  split; [exact wf_easy_grid|]. split; [exact Hnc|].
  exact (mrv_selects_first_minimum easy_grid wf_easy_grid Hnc).
Defined.

(** ** Propagation on a nine by nine grid returns *)

Lemma prune_all_reported cells row column ts va cells' va' :
  prune_all cells row column ts va = Ret (cells', (Some va', false)) ->
  forall q, q ∈ va' -> q ∈ va \/ q ∈ ts.
Proof.
  revert cells va. induction ts as [|[i j] ts IH]; intros cells va; simpl.
  - intros [= <- <-] q Hq. now left.
  - pose proof (prune_cases cells row column i j va) as Hp.
    destruct (AC3.prune cells row column i j va) as [[[cells1 va1]|]| |]; simpl;
      try discriminate.
    destruct Hp as (d & own & _ & _ & _ & _ & ->).
    intros Hrest q Hq. destruct (IH _ _ Hrest q Hq) as [H|H].
    + apply elem_of_app in H as [H|H]; [now left|]. right.
      destruct ((Str.len (Str.replace d own "") =? 1) && (1 <? Str.len d)).
      * apply list_elem_of_singleton in H. subst q. now left.
      * now apply elem_of_nil in H.
    + right. now right.
Qed.

Lemma pass_Ret cells var :
  shape9 cells -> in_range var ->
  exists cells' r, pass cells var = Ret (cells', r) /\
    forall new, r = Some new -> Forall in_range new.
Proof.
  intros Hs Hv.
  assert (Hrc : in_range (var.1, var.2)) by (now destruct var).
  assert (Hrange : forall ts, ts ⊆ peers var -> Forall in_range ts).
  { intros ts Hsub. apply Forall_forall. intros q Hq.
    eapply peers_in_range; [exact Hv|]. apply Hsub. exact Hq. }
  assert (S1 : row_peers var ⊆ peers var).
  { intros q Hq. apply elem_of_peers. auto. }
  assert (S2 : column_peers var ⊆ peers var).
  { intros q Hq. apply elem_of_peers. auto. }
  assert (S3 : unit_peers var ⊆ peers var).
  { intros q Hq. apply elem_of_peers. auto. }
  unfold pass. rewrite remove_domain_row_eq.
  destruct (prune_all_Ret cells var.1 var.2 (row_peers var) [] Hs Hrc (Hrange _ S1))
    as (c1 & [o1 f1] & H1).
  destruct (prune_all_evolves _ _ _ _ _ _ _ H1) as (E1 & Hok1 & _).
  pose proof (evolves_shape9 _ _ E1 Hs) as Hs1. rewrite H1. simpl.
  rewrite remove_domain_column_eq.
  destruct (prune_all_Ret c1 var.1 var.2 (column_peers var) [] Hs1 Hrc (Hrange _ S2))
    as (c2 & [o2 f2] & H2).
  destruct (prune_all_evolves _ _ _ _ _ _ _ H2) as (E2 & Hok2 & _).
  pose proof (evolves_shape9 _ _ E2 Hs1) as Hs2. rewrite H2. simpl.
  rewrite remove_domain_unit_eq.
  destruct (prune_all_Ret c2 var.1 var.2 (unit_peers var) [] Hs2 Hrc (Hrange _ S3))
    as (c3 & [o3 f3] & H3).
  destruct (prune_all_evolves _ _ _ _ _ _ _ H3) as (E3 & Hok3 & _).
  rewrite H3. simpl.
  destruct o1 as [l1|], o2 as [l2|], o3 as [l3|]; eexists _, _; (split; [reflexivity|]);
    try discriminate.
  intros new [= <-].
  destruct f1, f2, f3; simpl in Hok1, Hok2, Hok3; try contradiction.
  apply Forall_forall. intros q Hq.
  eapply peers_in_range; [exact Hv|].
  apply elem_of_app in Hq as [Hq|Hq]; [|apply elem_of_app in Hq as [Hq|Hq]].
  - destruct (prune_all_reported _ _ _ _ _ _ _ H1 q Hq) as [H|H];
      [now apply elem_of_nil in H|now apply S1].
  - destruct (prune_all_reported _ _ _ _ _ _ _ H2 q Hq) as [H|H];
      [now apply elem_of_nil in H|now apply S2].
  - destruct (prune_all_reported _ _ _ _ _ _ _ H3 q Hq) as [H|H];
      [now apply elem_of_nil in H|now apply S3].
Qed.

Lemma consistency_Ret cells Q :
  shape9 cells -> Forall in_range Q ->
  exists cells' n, AC3.consistency cells Q = Ret (cells', n).
Proof.
  pattern cells, Q, (AC3.consistency cells Q). apply consistency_ind; clear cells Q.
  - eauto.
  - intros cells Q var e Hpass Hs HQ. apply Forall_app in HQ as [_ Hv].
    inversion Hv as [|? ? Hvar _]; subst.
    destruct (pass_Ret cells var Hs Hvar) as (c' & r & E & _). congruence.
  - eauto.
  - intros cells Q var cells' new Hpass IH Hs HQ. apply Forall_app in HQ as [HQ Hv].
    inversion Hv as [|? ? Hvar _]; subst.
    destruct (pass_Ret cells var Hs Hvar) as (c' & r & E & Hnew).
    rewrite Hpass in E. injection E as <- <-.
    apply IH.
    + eapply evolves_shape9; [|exact Hs]. now destruct (pass_evolves _ _ _ _ Hpass).
    + apply Forall_app. split; [exact HQ|]. now apply Hnew.
Qed.

(** ** Well-formed grids stay well formed *)

Lemma shrunk_wf d d' : shrunk d d' -> wf_domain d -> wf_domain d'.
Proof.
  intros Hsh [[H1 H9] Hal]. pose proof (shrunk_len _ _ Hsh) as Hle. split.
  - split; [|lia].
    assert (d' <> "").
    { apply (shrunk_nonempty _ _ Hsh). intros ->. simpl in H1. lia. }
    destruct d'; [contradiction|simpl; lia].
  - apply Forall_forall. intros c Hc. apply list_elem_of_In in Hc.
    rewrite Forall_forall in Hal. apply Hal, list_elem_of_In.
    eapply shrunk_chars; eassumption.
Qed.

Lemma evolves_wf cells cells' : evolves cells cells' -> wf_grid cells -> wf_grid cells'.
Proof.
  intros Hev Hwf. apply wf_grid_intro.
  - eapply evolves_shape9; [exact Hev|]. now apply wf_grid_shape9.
  - intros p d' Hd'. destruct (evolves_cell_inv _ _ _ _ Hev Hd') as (d & Hd & Hsh).
    eapply shrunk_wf; [exact Hsh|]. eapply wf_grid_cell; eassumption.
Qed.

Lemma set_shape9 cells i j d cells' :
  Grid.set cells i j d = Ret cells' -> shape9 cells -> shape9 cells'.
Proof.
  rewrite set_cell. destruct (cell cells (i, j)) as [d0|] eqn:Hd0; [|discriminate].
  intros [= <-] [Hlen Hrows]. split.
  - now rewrite length_insert.
  - unfold cell in Hd0; simpl in Hd0.
    destruct (cells !! i) as [row|] eqn:Hrow; [|discriminate]. simpl.
    apply Forall_insert; [exact Hrows|]. rewrite length_insert.
    rewrite Forall_lookup in Hrows. exact (Hrows _ _ Hrow).
Qed.

Lemma set_wf cells i j d cells' :
  Grid.set cells i j d = Ret cells' -> wf_domain d -> wf_grid cells -> wf_grid cells'.
Proof.
  intros Hset Hd Hwf. apply wf_grid_intro.
  - eapply set_shape9; [exact Hset|]. now apply wf_grid_shape9.
  - destruct (set_Ret _ _ _ _ _ Hset) as (_ & Hnew & Hother).
    intros p d' Hd'. destruct (decide (p = (i, j))) as [->|Hne].
    + assert (d' = d) by congruence. now subst.
    + rewrite Hother in Hd' by assumption. eapply wf_grid_cell; eassumption.
Qed.

Lemma copy_id cells : Grid.copy cells = cells.
Proof. unfold Grid.copy. apply map_id. Qed.

Lemma wf_domain_symbol c d : wf_domain d -> In c (chars d) -> wf_domain (String c "").
Proof.
  intros [_ Hal] Hc. split; [simpl; lia|].
  constructor; [|constructor]. rewrite Forall_forall in Hal.
  apply Hal. now apply list_elem_of_In.
Qed.

(** ** The grids the engine can reach *)

Lemma reachable_wf cells : reachable cells -> wf_grid cells.
Proof.
  induction 1 as [s Hs|cells Q cells' _ IH Hrun
                 |cells sel i j ds c copy_A cells' _ IH _ _ Hget Hc _ Hset Hrun].
  - now apply read_file_wf.
  - destruct (consistency_evolves _ _ _ _ Hrun) as [Hev _].
    eapply evolves_wf; eassumption.
  - destruct (consistency_evolves _ _ _ _ Hrun) as [Hev _].
    eapply evolves_wf; [exact Hev|].
    rewrite copy_id in Hset. eapply set_wf; [exact Hset| |exact IH].
    apply get_Ret in Hget. eapply wf_domain_symbol; [|exact Hc].
    eapply wf_grid_cell; eassumption.
Qed.

(** C5: every grid reached from a well-formed puzzle by initialization,
    successful calls of consistency and search steps has nine rows of nine
    domains, and each of the 81 domains has at least one symbol. *)
Theorem reachable_domains_nonempty (cells : Cells) :
  reachable cells ->
  List.length (concat cells) = 81 /\
  Forall (fun d => 1 <= Str.len d) (concat cells) /\
  forall p, in_range p -> exists d, cell cells p = Some d /\ 1 <= Str.len d.
Proof.
  intros Hr. pose proof (reachable_wf cells Hr) as Hwf.
  destruct Hwf as [Hlen Hrows]. split; [|split].
  - assert (Hsum : forall l : list (list string),
               Forall (fun row => List.length row = 9) l ->
               List.length (concat l) = 9 * List.length l).
    { induction 1 as [|row l Hrow _ IH]; simpl; [reflexivity|].
      rewrite length_app, IH, Hrow. lia. }
    rewrite Hsum, Hlen; [reflexivity|].
    eapply Forall_impl; [exact Hrows|]. now intros row [H _].
  - apply Forall_concat. eapply Forall_impl; [exact Hrows|].
    intros row [_ Hds]. eapply Forall_impl; [exact Hds|]. now intros d [[H _] _].
  - intros p Hp. pose proof (conj Hlen Hrows : wf_grid cells) as Hwf.
    destruct (proj2 (shape9_cell cells p (wf_grid_shape9 _ Hwf)) Hp) as [d Hd].
    exists d. split; [exact Hd|]. now destruct (wf_grid_cell _ _ _ Hwf Hd) as [[H _] _].
Qed.

Lemma reachable_domains_nonempty_witness :
  reachable easy_grid /\
  forall p, in_range p -> exists d, cell easy_grid p = Some d /\ 1 <= Str.len d.
Proof.
  assert (Hwf : well_formed_puzzle easy_puzzle).
  { apply well_formed_puzzleb_spec. reflexivity. }
  split; [exact (reachable_initial _ Hwf)|].
  apply (reachable_domains_nonempty easy_grid (reachable_initial _ Hwf)).
Defined.

(** ** When propagation fails *)

Lemma assigned_cell cells p :
  shape9 cells -> assigned cells p -> exists c, cell cells p = Some (String c "").
Proof.
  intros Hs [Hr Hlen]. destruct (proj2 (shape9_cell cells p Hs) Hr) as [d Hd].
  unfold domain in Hlen. rewrite Hd in Hlen. simpl in Hlen.
  apply len_1 in Hlen as [c ->]. eauto.
Qed.

Lemma cell_domain cells p d : cell cells p = Some d -> domain cells p = d.
Proof. unfold domain. now intros ->. Qed.

Lemma evolves_assigned cells cells' p :
  evolves cells cells' -> shape9 cells -> assigned cells p -> assigned cells' p.
Proof.
  intros Hev Hs Ha. destruct (assigned_cell _ _ Hs Ha) as [c Hc].
  destruct Ha as [Hr _]. split; [exact Hr|].
  destruct (evolves_cell _ _ _ _ Hev Hc) as (d' & Hd' & Hsh).
  rewrite (cell_domain _ _ _ Hd').
  rewrite (shrunk_single _ _ Hsh); simpl; lia.
Qed.

(** What a pass from an assigned position leaves for the next one. *)
Lemma pass_assigned cells Q var cells' new :
  shape9 cells -> Forall (assigned cells) (Q ++ [var]) ->
  pass cells var = Ret (cells', Some new) ->
  shape9 cells' /\ Forall (assigned cells') (Q ++ new).
Proof.
  intros Hs HQ Hpass. apply Forall_app in HQ as [HQ Hv].
  inversion Hv as [|? ? Hvar _]; subst.
  destruct (pass_evolves _ _ _ _ Hpass) as [Hev _].
  split; [eapply evolves_shape9; eassumption|].
  apply Forall_app. split.
  - eapply Forall_impl; [exact HQ|]. intros p. now apply evolves_assigned.
  - destruct (assigned_cell _ _ Hs Hvar) as [c Hc].
    destruct (pass_spec cells var c Hs (proj1 Hvar) Hc)
      as [(c1 & new1 & E & Hts & _ & Hnew)|(c1 & E & _)]; [|congruence].
    rewrite Hpass in E. injection E as <- <-.
    apply Forall_forall. intros q Hq. apply Hnew in Hq as (Hq & d & Hd & Hlt & Hone).
    split; [eapply peers_in_range; [exact (proj1 Hvar)|exact Hq]|].
    destruct (Hts q d Hq Hd) as [_ Hd']. now rewrite (cell_domain _ _ _ Hd').
Qed.

(** A pass from an assigned position fails exactly when a peer would be
    emptied. *)
Lemma pass_fails_iff cells var :
  shape9 cells -> assigned cells var ->
  (exists cells', pass cells var = Ret (cells', None)) <-> would_empty cells var.
Proof.
  intros Hs Hvar. destruct (assigned_cell _ _ Hs Hvar) as [c Hc].
  unfold would_empty. rewrite (cell_domain _ _ _ Hc). fold (strip c).
  destruct (pass_spec cells var c Hs (proj1 Hvar) Hc)
    as [(c1 & new1 & E & Hts & _ & _)|(c1 & E & t & d & Ht & Hd & Hz)].
  - split.
    + intros [c' E']. congruence.
    + intros (t & Ht & Hz). exfalso.
      pose proof (peers_in_range _ _ (proj1 Hvar) Ht) as Hr.
      destruct (proj2 (shape9_cell cells t Hs) Hr) as [d Hd].
      rewrite (cell_domain _ _ _ Hd) in Hz. unfold strip in Hts.
      now destruct (Hts t d Ht Hd).
  - split; [|eauto]. intros _. exists t. split; [exact Ht|].
    now rewrite (cell_domain _ _ _ Hd).
Qed.

Lemma processing_consistency_pair s s1 :
  processing s s1 -> AC3.consistency s.1 s.2 = AC3.consistency s1.1 s1.2.
Proof.
  induction 1 as [s|c Q0 var c' new s Hpass _ IH]; [reflexivity|].
  simpl in *. now rewrite consistency_snoc, Hpass.
Qed.

Lemma processing_consistency cells Q cells1 Q1 :
  processing (cells, Q) (cells1, Q1) ->
  AC3.consistency cells Q = AC3.consistency cells1 Q1.
Proof. apply processing_consistency_pair. Qed.

Lemma processing_assigned_pair s s1 :
  processing s s1 ->
  shape9 s.1 -> Forall (assigned s.1) s.2 ->
  shape9 s1.1 /\ Forall (assigned s1.1) s1.2.
Proof.
  induction 1 as [s|c Q0 var c' new s Hpass _ IH]; [auto|].
  simpl in *. intros Hs HQ.
  destruct (pass_assigned _ _ _ _ _ Hs HQ Hpass) as [Hs' HQ']. auto.
Qed.

Lemma processing_assigned cells Q cells1 Q1 :
  processing (cells, Q) (cells1, Q1) ->
  shape9 cells -> Forall (assigned cells) Q ->
  shape9 cells1 /\ Forall (assigned cells1) Q1.
Proof. apply processing_assigned_pair. Qed.

(** C2: on a grid of nine rows of nine domains and a queue of assigned
    positions, consistency returns 0 (failure) if and only if the passes of
    its loop lead to a grid and a queue whose last position has a peer that
    removing its symbol would empty; the call then returns 0 whatever is
    left in the queue.  Otherwise the passes lead to the empty queue and
    the call returns 1 (success).  The call always returns one of the two. *)
Theorem consistency_fails_iff_a_domain_would_empty (cells : Cells) (Q : list pos) :
  shape9 cells -> Forall (assigned cells) Q ->
  ((exists cells', AC3.consistency cells Q = Ret (cells', 0)) <->
   (exists cells1 Q1 var,
      processing (cells, Q) (cells1, Q1 ++ [var]) /\ would_empty cells1 var)) /\
  ((exists cells', AC3.consistency cells Q = Ret (cells', 1)) <->
   ~ (exists cells1 Q1 var,
        processing (cells, Q) (cells1, Q1 ++ [var]) /\ would_empty cells1 var)) /\
  (forall cells', AC3.consistency cells Q = Ret (cells', 1) <->
                  processing (cells, Q) (cells', [])) /\
  (forall cells1 Q1 var,
     processing (cells, Q) (cells1, Q1 ++ [var]) -> would_empty cells1 var ->
     forall rest, exists cells', AC3.consistency cells1 (rest ++ [var]) = Ret (cells', 0)).
Proof.
  intros Hs HQ.
  assert (Hfail : forall cells1 Q1 var,
            processing (cells, Q) (cells1, Q1 ++ [var]) -> would_empty cells1 var ->
            forall rest, exists cells', AC3.consistency cells1 (rest ++ [var]) = Ret (cells', 0)).
  { intros cells1 Q1 var Hp Hw rest.
    destruct (processing_assigned _ _ _ _ Hp Hs HQ) as [Hs1 HQ1].
    apply Forall_app in HQ1 as [_ Hv]. inversion Hv as [|? ? Hvar _]; subst.
    apply (pass_fails_iff cells1 var Hs1 Hvar) in Hw as [c' E].
    exists c'. now rewrite consistency_snoc, E. }
  assert (Hfwd : forall r, AC3.consistency cells Q = r ->
            (forall cells', r = Ret (cells', 0) ->
               exists cells1 Q1 var,
                 processing (cells, Q) (cells1, Q1 ++ [var]) /\ would_empty cells1 var) /\
            (forall cells', r = Ret (cells', 1) -> processing (cells, Q) (cells', []))).
  { intros r <-. revert Hs HQ. clear Hfail.
    pattern cells, Q, (AC3.consistency cells Q). apply consistency_ind; clear cells Q.
    - intros cells _ _. split; [discriminate|]. intros c' [= <-]. constructor.
    - intros cells Q var e _ _ _. split; discriminate.
    - intros cells Q var c1 Hpass Hs HQ. split; [|discriminate].
      intros c' _. exists cells, Q, var. split; [constructor|].
      apply Forall_app in HQ as [_ Hv]. inversion Hv as [|? ? Hvar _]; subst.
      apply (pass_fails_iff cells var Hs Hvar). eauto.
    - intros cells Q var c1 new Hpass IH Hs HQ.
      destruct (pass_assigned _ _ _ _ _ Hs HQ Hpass) as [Hs' HQ'].
      destruct (IH Hs' HQ') as [IH0 IH1]. split.
      + intros c' E. destruct (IH0 c' E) as (cells1 & Q1 & v & Hp & Hw).
        exists cells1, Q1, v. split; [|exact Hw]. econstructor; eassumption.
      + intros c' E. econstructor; [exact Hpass|]. now apply IH1. }
  destruct (Hfwd _ eq_refl) as [H0 H1].
  assert (Hexcl : forall c0, AC3.consistency cells Q = Ret (c0, 0) ->
                  forall c1, AC3.consistency cells Q = Ret (c1, 1) -> False).
  { intros c0 E0 c1 E1. congruence. }
  split; [|split; [|split]].
  - split.
    + intros [c' E]. exact (H0 c' E).
    + intros (cells1 & Q1 & var & Hp & Hw).
      destruct (Hfail _ _ _ Hp Hw Q1) as [c' E]. exists c'.
      now rewrite (processing_consistency _ _ _ _ Hp).
  - split.
    + intros [c1 E1] (cells1 & Q1 & var & Hp & Hw).
      destruct (Hfail _ _ _ Hp Hw Q1) as [c' E].
      rewrite <- (processing_consistency _ _ _ _ Hp) in E. congruence.
    + intros Hno.
      assert (HQr : Forall in_range Q).
      { eapply Forall_impl; [exact HQ|]. now intros p [H _]. }
      destruct (consistency_Ret cells Q Hs HQr) as (c' & n & E).
      destruct (consistency_evolves _ _ _ _ E) as [_ [->| ->]]; [|eauto].
      exfalso. apply Hno. exact (H0 c' E).
  - intros c'. split; [apply H1|].
    intros Hp. rewrite (processing_consistency _ _ _ _ Hp). apply consistency_nil.
  - exact Hfail.
Qed.

Lemma shape9_clash_grid : shape9 clash_grid.
Proof. split; [reflexivity|]. vm_compute. repeat constructor. Qed.

Lemma consistency_fails_iff_a_domain_would_empty_witness :
  shape9 clash_grid /\ Forall (assigned clash_grid) [(0, 0)] /\
  exists cells', AC3.consistency clash_grid [(0, 0)] = Ret (cells', 0).
Proof.
  assert (HQ : Forall (assigned clash_grid) [(0, 0)]).
  { constructor; [|constructor]. split; [split; simpl; lia|reflexivity]. }
  split; [exact shape9_clash_grid|]. split; [exact HQ|].
  apply (consistency_fails_iff_a_domain_would_empty clash_grid [(0, 0)]
           shape9_clash_grid HQ).
  exists clash_grid, [], (0, 0). split; [constructor|].
  exists (0, 1). split; [|reflexivity].
  apply elem_of_peers. left. apply elem_of_row_peers. simpl. lia.
Defined.

(** ** The search, on grids as values *)

Lemma refines_prefix h0 h r v : h0 `prefix_of` h -> refines h r v -> refines h0 r v.
Proof.
  intros Hp. destruct v as [[sol|]|e|]; simpl; auto.
  - intros (l & h' & E & Hl & Hp'). exists l, h'. split; [exact E|]. split; [exact Hl|].
    etransitivity; eassumption.
  - intros (h' & E & Hp'). exists h'. split; [exact E|]. etransitivity; eassumption.
Qed.

Lemma store_deref h l cells : h !! l = Some cells -> Store.deref h l = Ret cells.
Proof. unfold Store.deref. now intros ->. Qed.

Lemma store_copy h grid cells :
  h !! grid = Some cells ->
  Store.copy h grid = Ret (List.length h, h ++ [Grid.copy cells]).
Proof. intros H. unfold Store.copy. now rewrite (store_deref _ _ _ H). Qed.

Lemma store_assign h cells i j d :
  Store.assign (h ++ [cells]) (List.length h) i j d =
  cells' ← Grid.set cells i j d; Ret (h ++ [cells']).
Proof.
  unfold Store.assign. rewrite (store_deref _ _ cells) by (now apply list_lookup_middle).
  simpl. destruct (Grid.set cells i j d) as [cells'| |]; simpl; try reflexivity.
  rewrite insert_app_r_alt by lia. now rewrite Nat.sub_diag.
Qed.

Lemma store_consistency h cells Q :
  Store.consistency (h ++ [cells]) (List.length h) Q =
  '(cells', inference) ← AC3.consistency cells Q; Ret (inference, h ++ [cells']).
Proof.
  unfold Store.consistency.
  rewrite (store_deref _ _ cells) by (now apply list_lookup_middle).
  simpl. destruct (AC3.consistency cells Q) as [[cells' n]| |]; simpl; try reflexivity.
  rewrite insert_app_r_alt by lia. now rewrite Nat.sub_diag.
Qed.

Lemma search_loop_refines rec_h rec_v grid cells var ds :
  (forall h l c, h !! l = Some c -> refines h (rec_h h l) (rec_v c)) ->
  forall h, h !! grid = Some cells ->
  refines h (Backtracking.search_loop rec_h grid var ds h)
            (search_spec_loop rec_v cells var ds).
Proof.
  intros Hrec. induction ds as [|c ds IH]; intros h Hgrid.
  - simpl. exists h. split; [reflexivity|]. reflexivity.
  - cbn [Backtracking.search_loop search_spec_loop].
    rewrite (store_deref _ _ _ Hgrid). simpl.
    destruct (Backtracking.isConsistent cells var (String c "")) as [[|]| |]; simpl;
      try reflexivity; [|now apply IH].
    rewrite (store_copy _ _ _ Hgrid). simpl.
    rewrite store_assign.
    destruct (Grid.set (Grid.copy cells) var.1 var.2 (String c "")) as [c1| |]; simpl;
      try reflexivity.
    rewrite store_consistency.
    destruct (AC3.consistency c1 [(var.1, var.2)]) as [[c2 n]| |]; simpl;
      try reflexivity.
    assert (Hp : h `prefix_of` h ++ [c2]) by (now apply prefix_app_r).
    assert (Hgrid2 : (h ++ [c2]) !! grid = Some cells)
      by (now apply lookup_app_l_Some).
    destruct (n =? 0).
    + eapply refines_prefix; [exact Hp|]. now apply IH.
    + assert (Hc2 : (h ++ [c2]) !! List.length h = Some c2)
        by (now apply list_lookup_middle).
      pose proof (Hrec _ _ _ Hc2) as Href.
      destruct (rec_v c2) as [[sol|]|e|]; simpl in *.
      * destruct Href as (l & h' & -> & Hl & Hp'). simpl.
        exists l, h'. split; [reflexivity|]. split; [exact Hl|]. etransitivity; eassumption.
      * destruct Href as (h' & -> & Hp'). simpl.
        eapply refines_prefix; [etransitivity; eassumption|].
        apply IH. eapply prefix_lookup_Some; eassumption.
      * now rewrite Href.
      * now rewrite Href.
Qed.

Lemma search_fuel_refines fuel var_selector :
  forall h grid cells, h !! grid = Some cells ->
  refines h (Backtracking.search_fuel fuel var_selector h grid)
            (search_spec fuel var_selector cells).
Proof.
  induction fuel as [|fuel IH]; intros h grid cells Hgrid; [reflexivity|].
  cbn [Backtracking.search_fuel search_spec].
  rewrite (store_deref _ _ _ Hgrid). simpl.
  destruct (Grid.is_solved cells) as [[|]| |]; simpl; try reflexivity.
  - exists grid, h. split; [reflexivity|]. split; [exact Hgrid|reflexivity].
  - destruct (select_variable var_selector cells) as [[|i j]| |]; simpl; try reflexivity.
    destruct (Grid.get cells i j) as [ds| |]; simpl; try reflexivity.
    now apply search_loop_refines.
Qed.

Lemma search_refines var_selector h grid cells :
  h !! grid = Some cells ->
  refines h (Backtracking.search var_selector h grid) (solution var_selector cells).
Proof.
  intros Hgrid. unfold Backtracking.search, solution.
  rewrite (store_deref _ _ _ Hgrid).
  exact (search_fuel_refines (S (Backtracking.weight cells)) var_selector h grid cells Hgrid).
Qed.

Lemma search_Ret_inv var_selector h grid cells r h' :
  h !! grid = Some cells ->
  Backtracking.search var_selector h grid = Ret (r, h') ->
  h `prefix_of` h' /\
  match r with
  | Found l => exists sol, h' !! l = Some sol /\ solution var_selector cells = Ret (Some sol)
  | Zero => solution var_selector cells = Ret None
  end.
Proof.
  intros Hgrid Hrun. pose proof (search_refines var_selector h grid cells Hgrid) as Href.
  rewrite Hrun in Href.
  destruct (solution var_selector cells) as [[sol|]|e|]; simpl in Href; try discriminate.
  - destruct Href as (l & h1 & [= -> <-] & Hl & Hp). split; [exact Hp|]. eauto.
  - destruct Href as (h1 & [= -> <-] & Hp). split; [exact Hp|reflexivity].
Qed.

(** C10: search never changes the grid it is given, nor any other grid of
    the store it is called on: when it returns, with a solution or with 0,
    the store holds the grids it held on entry, followed by the clones the
    search made. *)
Theorem search_leaves_its_grid_unchanged (var_selector : VarSelector) (h : heap)
    (grid : loc) (cells : Cells) (r : search_result) (h' : heap) :
  h !! grid = Some cells ->
  Backtracking.search var_selector h grid = Ret (r, h') ->
  h' !! grid = Some cells /\
  (exists clones, h' = h ++ clones) /\
  forall l c, h !! l = Some c -> h' !! l = Some c.
Proof.
  intros Hgrid Hrun.
  destruct (search_Ret_inv _ _ _ _ _ _ Hgrid Hrun) as [Hp _].
  split; [eapply prefix_lookup_Some; eassumption|]. split; [exact Hp|].
  intros l c Hl. eapply prefix_lookup_Some; eassumption.
Qed.

Lemma search_leaves_its_grid_unchanged_witness :
  exists r h',
    [easy_grid] !! 0 = Some easy_grid /\
    Backtracking.search MRV [easy_grid] 0 = Ret (r, h') /\
    h' !! 0 = Some easy_grid.
Proof.
  assert (Hrun : exists r h', Backtracking.search MRV [easy_grid] 0 = Ret (r, h')).
  { eexists _, _. vm_compute. reflexivity. }
  destruct Hrun as (r & h' & Hrun). exists r, h'.
  split; [reflexivity|]. split; [exact Hrun|].
  exact (proj1 (search_leaves_its_grid_unchanged MRV [easy_grid] 0 easy_grid r h'
                  eq_refl Hrun)).
Defined.

(** ** The search ends *)

Lemma is_solved_loop_spec cells ps :
  shape9 cells -> Forall in_range ps ->
  exists b, Grid.is_solved_loop cells ps = Ret b /\
    (b = true <-> Forall (fun p => Str.len (domain cells p) = 1) ps).
Proof.
  intros Hs Hps. induction Hps as [|[i j] ps Hij Hps IH].
  - exists true. split; [reflexivity|]. split; [constructor|reflexivity].
  - cbn [Grid.is_solved_loop]. rewrite get_domain by assumption. simpl.
    destruct (Nat.eqb_spec (Str.len (domain cells (i, j))) 1) as [E|E]; simpl.
    + destruct IH as (b & Hb & Hiff). exists b. split; [exact Hb|].
      rewrite Hiff. split; [now constructor|]. now inversion 1.
    + exists false. split; [reflexivity|]. split; [discriminate|].
      inversion 1; contradiction.
Qed.

Lemma is_solved_spec cells :
  shape9 cells ->
  exists b, Grid.is_solved cells = Ret b /\ (b = true <-> complete cells).
Proof.
  intros Hs. unfold Grid.is_solved, Grid.get_width, Grid._width. fold positions.
  destruct (is_solved_loop_spec cells positions Hs positions_in_range) as (b & Hb & Hiff).
  exists b. split; [exact Hb|]. now rewrite complete_positions.
Qed.

(** On a nine by nine grid a selector returns, and a position it returns
    inside the grid has a domain of several symbols. *)
Lemma select_variable_shape9 var_selector cells :
  shape9 cells ->
  exists v, select_variable var_selector cells = Ret v /\
    forall i j, v = PyTuple i j -> in_range (i, j) -> 1 < Str.len (domain cells (i, j)).
Proof.
  intros Hs. destruct var_selector; simpl.
  - unfold FirstAvailable.select_variable, Grid.get_width, Grid._width. fold positions.
    destruct (first_available_scan cells positions Hs positions_in_range)
      as [(before & p & after & _ & _ & Hp & ->)|[_ ->]]; eexists; (split; [reflexivity|]).
    + intros i j [= <- <-] _. now destruct p.
    + discriminate.
  - unfold MRV.select_variable, Grid.get_width, Grid._width. fold positions.
    destruct (mrv_scan cells positions Hs positions_in_range (10, 10) 10)
      as (cur' & -> & [[-> _]|(before & after & _ & Hc & _)]);
      eexists; (split; [reflexivity|]).
    + intros i j [= <- <-] [H _]. simpl in H. lia.
    + intros i j [= <- <-] _. now destruct cur'.
Qed.

Lemma getRowValues_loop_Ret cells var js acc :
  shape9 cells -> var.1 < 9 -> Forall (fun j => j < 9) js ->
  exists s, Backtracking.getRowValues_loop cells var js acc = Ret s.
Proof.
  intros Hs Hv Hjs. revert acc. induction Hjs as [|j js Hj _ IH]; intros acc; simpl; [eauto|].
  rewrite (get_domain cells var.1 j Hs) by (split; assumption). simpl.
  destruct (Str.len (domain cells (var.1, j)) =? 1); apply IH.
Qed.

Lemma getColumnValues_loop_Ret cells var js acc :
  shape9 cells -> var.2 < 9 -> Forall (fun j => j < 9) js ->
  exists s, Backtracking.getColumnValues_loop cells var js acc = Ret s.
Proof.
  intros Hs Hv Hjs. revert acc. induction Hjs as [|j js Hj _ IH]; intros acc; simpl; [eauto|].
  rewrite (get_domain cells j var.2 Hs) by (split; assumption). simpl.
  destruct (Str.len (domain cells (j, var.2)) =? 1); apply IH.
Qed.

Lemma getUnitValues_loop_Ret cells var ps acc :
  shape9 cells -> Forall in_range ps ->
  exists s, Backtracking.getUnitValues_loop cells var ps acc = Ret s.
Proof.
  intros Hs Hps. revert acc.
  induction Hps as [|[i j] ps Hij _ IH]; intros acc; simpl; [eauto|].
  destruct ((i =? var.1) && (j =? var.2)); [apply IH|].
  rewrite (get_domain cells i j Hs Hij). simpl.
  destruct (Str.len (domain cells (i, j)) =? 1); apply IH.
Qed.

Lemma range_lt n : Forall (fun j => j < n) (range n).
Proof. apply Forall_forall. intros j Hj. apply list_elem_of_In, in_seq in Hj. lia. Qed.

Lemma unit_positions_in_range var :
  in_range var ->
  Forall in_range (nested (range_from (var.1 / 3 * 3) 3) (range_from (var.2 / 3 * 3) 3)).
Proof.
  intros [H1 H2]. apply Forall_forall. intros q Hq.
  apply list_elem_of_In, in_nested in Hq as [Hq1 Hq2].
  unfold range_from in *. apply in_seq in Hq1, Hq2.
  pose proof (Nat.div_mod_eq var.1 3). pose proof (Nat.div_mod_eq var.2 3).
  pose proof (Nat.mod_upper_bound var.1 3). pose proof (Nat.mod_upper_bound var.2 3).
  split; lia.
Qed.

Lemma isConsistent_Ret cells var value :
  shape9 cells -> in_range var ->
  exists b, Backtracking.isConsistent cells var value = Ret b.
Proof.
  intros Hs Hv.
  assert (H1 : exists s, Backtracking.getRowValues cells var = Ret s).
  { apply getRowValues_loop_Ret; [exact Hs|apply Hv|apply range_lt]. }
  assert (H2 : exists s, Backtracking.getColumnValues cells var = Ret s).
  { apply getColumnValues_loop_Ret; [exact Hs|apply Hv|apply range_lt]. }
  assert (H3 : exists s, Backtracking.getUnitValues cells var = Ret s).
  { apply getUnitValues_loop_Ret; [exact Hs|now apply unit_positions_in_range]. }
  destruct H1 as [s1 H1], H2 as [s2 H2], H3 as [s3 H3].
  unfold Backtracking.isConsistent. rewrite H1. simpl.
  destruct (Str.contains s1 value); [eauto|]. rewrite H2. simpl.
  destruct (Str.contains s2 value); [eauto|]. rewrite H3. simpl.
  destruct (Str.contains s3 value); eauto.
Qed.

(** Assigning one symbol to a domain of several makes the grid lighter. *)
Lemma assign_lighter cells i j c clone :
  1 < Str.len (domain cells (i, j)) ->
  Grid.set (Grid.copy cells) i j (String c "") = Ret clone ->
  Backtracking.weight clone < Backtracking.weight cells.
Proof.
  rewrite copy_id. intros Hlen Hset.
  destruct (set_Ret _ _ _ _ _ Hset) as ([d Hd] & _ & _).
  pose proof (total_set Str.len _ _ _ _ _ _ Hd Hset) as Htot.
  rewrite (cell_domain _ _ _ Hd) in Hlen. unfold Backtracking.weight. simpl in Htot. lia.
Qed.

Lemma search_spec_loop_total rec1 rec2 cells var ds :
  shape9 cells -> in_range var -> 1 < Str.len (domain cells var) ->
  (forall clone, shape9 clone ->
     Backtracking.weight clone < Backtracking.weight cells ->
     rec1 clone = rec2 clone /\ rec2 clone <> OutOfFuel) ->
  search_spec_loop rec1 cells var ds = search_spec_loop rec2 cells var ds /\
  search_spec_loop rec2 cells var ds <> OutOfFuel.
Proof.
  intros Hs Hv Hlen Hrec. induction ds as [|c ds IH]; [split; [reflexivity|discriminate]|].
  cbn [search_spec_loop].
  destruct (isConsistent_Ret cells var (String c "") Hs Hv) as [[|] ->]; simpl; [|exact IH].
  destruct (Grid.set (Grid.copy cells) var.1 var.2 (String c "")) as [c1| |] eqn:Hset;
    simpl; [|split; [reflexivity|discriminate]|].
  2:{ exfalso. revert Hset. rewrite set_cell.
      destruct (cell (Grid.copy cells) (var.1, var.2)); discriminate. }
  pose proof (consistency_not_OutOfFuel c1 [(var.1, var.2)]) as Hno.
  destruct (AC3.consistency c1 [(var.1, var.2)]) as [[c2 n]| |] eqn:Hrun; simpl;
    [|split; [reflexivity|discriminate]|contradiction].
  destruct (n =? 0); [exact IH|].
  destruct (consistency_evolves _ _ _ _ Hrun) as [Hev _].
  assert (Hs1 : shape9 c1).
  { eapply set_shape9; [exact Hset|]. now rewrite copy_id. }
  assert (Hw : Backtracking.weight c2 < Backtracking.weight cells).
  { pose proof (weight_evolves _ _ Hev).
    assert (Backtracking.weight c1 < Backtracking.weight cells); [|lia].
    eapply assign_lighter; [|exact Hset]. now destruct var. }
  destruct (Hrec c2 (evolves_shape9 _ _ Hev Hs1) Hw) as [E Hne]. rewrite E.
  destruct (rec2 c2) as [[sol|]|e|]; simpl.
  - split; [reflexivity|discriminate].
  - exact IH.
  - split; [reflexivity|discriminate].
  - contradiction.
Qed.

Lemma search_spec_enough var_selector n :
  forall cells, shape9 cells -> Backtracking.weight cells < n ->
  (forall fuel, n <= fuel ->
     search_spec fuel var_selector cells = search_spec n var_selector cells) /\
  search_spec n var_selector cells <> OutOfFuel.
Proof.
  induction n as [|n IH]; intros cells Hs Hw; [lia|].
  assert (Hboth : forall fuel, n <= fuel ->
            search_spec (S fuel) var_selector cells = search_spec (S n) var_selector cells /\
            search_spec (S n) var_selector cells <> OutOfFuel).
  { intros fuel Hfuel. cbn [search_spec].
    destruct (is_solved_spec cells Hs) as (b & -> & _). simpl.
    destruct b; [split; [reflexivity|discriminate]|].
    destruct (select_variable_shape9 var_selector cells Hs) as (v & -> & Hv). simpl.
    destruct v as [|i j]; [split; [reflexivity|discriminate]|].
    rewrite get_cell. destruct (cell cells (i, j)) as [ds|] eqn:Hds; simpl;
      [|split; [reflexivity|discriminate]].
    assert (Hr : in_range (i, j)) by (apply (shape9_cell cells); eauto).
    apply search_spec_loop_total; [exact Hs|exact Hr|now apply Hv|].
    intros clone Hsc Hwc. destruct (IH clone Hsc) as [Hfuel' Hne]; [lia|].
    split; [now apply Hfuel'|exact Hne]. }
  split.
  - intros [|fuel] Hfuel; [lia|]. apply Hboth. lia.
  - apply (Hboth n). lia.
Qed.

Lemma solution_fuel var_selector cells fuel :
  shape9 cells -> Backtracking.weight cells < fuel ->
  search_spec fuel var_selector cells = solution var_selector cells.
Proof.
  intros Hs Hw. unfold solution.
  destruct (search_spec_enough var_selector (S (Backtracking.weight cells)) cells Hs)
    as [H _]; [lia|].
  apply H. lia.
Qed.

Lemma solution_not_OutOfFuel var_selector cells :
  shape9 cells -> solution var_selector cells <> OutOfFuel.
Proof.
  intros Hs. unfold solution.
  destruct (search_spec_enough var_selector (S (Backtracking.weight cells)) cells Hs)
    as [_ H]; [lia|exact H].
Qed.

(** On a well-formed grid nothing raises. *)
Lemma search_spec_loop_Ret rec cells var ds :
  wf_grid cells -> in_range var -> 1 < Str.len (domain cells var) ->
  Forall (fun c => In c alphabet) (chars ds) ->
  (forall clone, wf_grid clone ->
     Backtracking.weight clone < Backtracking.weight cells ->
     exists r, rec clone = Ret r) ->
  exists r, search_spec_loop rec cells var ds = Ret r.
Proof.
  intros Hwf Hv Hlen Hds Hrec. pose proof (wf_grid_shape9 _ Hwf) as Hs.
  induction ds as [|c ds IH]; [simpl; eauto|].
  inversion Hds as [|? ? Hc Hds']; subst. specialize (IH Hds').
  cbn [search_spec_loop].
  destruct (isConsistent_Ret cells var (String c "") Hs Hv) as [[|] ->]; simpl; [|exact IH].
  destruct (set_is_Some (Grid.copy cells) var.1 var.2 (String c "")) as [c1 Hset].
  { rewrite copy_id. apply (shape9_cell cells _ Hs). now destruct var. }
  rewrite Hset. simpl.
  assert (Hwf1 : wf_grid c1).
  { eapply set_wf; [exact Hset| |now rewrite copy_id].
    split; [simpl; lia|]. constructor; [exact Hc|constructor]. }
  destruct (consistency_Ret c1 [(var.1, var.2)] (wf_grid_shape9 _ Hwf1))
    as (c2 & n & Hrun).
  { constructor; [now destruct var|constructor]. }
  rewrite Hrun. simpl. destruct (n =? 0); [exact IH|].
  destruct (consistency_evolves _ _ _ _ Hrun) as [Hev _].
  assert (Hw : Backtracking.weight c2 < Backtracking.weight cells).
  { pose proof (weight_evolves _ _ Hev).
    assert (Backtracking.weight c1 < Backtracking.weight cells); [|lia].
    eapply assign_lighter; [|exact Hset]. now destruct var. }
  destruct (Hrec c2 (evolves_wf _ _ Hev Hwf1) Hw) as [[sol|] ->]; simpl; eauto.
Qed.

Lemma search_spec_Ret var_selector n :
  forall cells, wf_grid cells -> Backtracking.weight cells < n ->
  exists r, search_spec n var_selector cells = Ret r.
Proof.
  induction n as [|n IH]; intros cells Hwf Hw; [lia|].
  pose proof (wf_grid_shape9 _ Hwf) as Hs.
  cbn [search_spec].
  destruct (is_solved_spec cells Hs) as (b & -> & Hb). simpl.
  destruct b; [eauto|].
  assert (Hnc : ~ complete cells) by (intros Hc; apply Hb in Hc; discriminate).
  assert (Hsel : exists p, in_range p /\ 1 < Str.len (domain cells p) /\
                   select_variable var_selector cells = Ret (PyTuple p.1 p.2)).
  { destruct var_selector; simpl.
    - destruct (first_available_spec cells Hwf) as [[Hc _]|(p & Hp & Hl & Hf & _)];
        [contradiction|eauto].
    - destruct (mrv_spec cells Hwf) as [[Hc _]|(p & Hp & Hl & Hf & _)];
        [contradiction|eauto]. }
  destruct Hsel as ([i j] & Hp & Hl & ->). simpl.
  rewrite (get_domain cells i j Hs Hp). simpl.
  apply search_spec_loop_Ret; try assumption.
  - now destruct (wf_grid_domain cells (i, j) Hwf Hp).
  - intros clone Hwfc Hwc. apply IH; [exact Hwfc|lia].
Qed.

(** More fuel does not change what the search on the store returns. *)
Lemma search_loop_more rec1 rec2 grid var ds :
  (forall h l, rec1 h l <> OutOfFuel -> rec2 h l = rec1 h l) ->
  forall h, Backtracking.search_loop rec1 grid var ds h <> OutOfFuel ->
  Backtracking.search_loop rec2 grid var ds h = Backtracking.search_loop rec1 grid var ds h.
Proof.
  intros Hrec. induction ds as [|c ds IH]; intros h; [reflexivity|].
  cbn [Backtracking.search_loop].
  destruct (Store.deref h grid) as [cells| |]; simpl; try reflexivity.
  destruct (Backtracking.isConsistent cells var (String c "")) as [[|]| |]; simpl;
    try reflexivity; [|apply IH].
  destruct (Store.copy h grid) as [[copy_A h1]| |]; simpl; try reflexivity.
  destruct (Store.assign h1 copy_A var.1 var.2 (String c "")) as [h2| |]; simpl;
    try reflexivity.
  destruct (Store.consistency h2 copy_A [(var.1, var.2)]) as [[n h3]| |]; simpl;
    try reflexivity.
  destruct (n =? 0); [apply IH|].
  destruct (rec1 h3 copy_A) as [[rb h4]| |] eqn:E1; simpl.
  - rewrite (Hrec h3 copy_A) by (rewrite E1; discriminate). rewrite E1. simpl.
    destruct rb; [reflexivity|apply IH].
  - rewrite (Hrec h3 copy_A) by (rewrite E1; discriminate). now rewrite E1.
  - intros H. now elim H.
Qed.

Lemma search_fuel_more var_selector n m :
  n <= m ->
  forall h grid, Backtracking.search_fuel n var_selector h grid <> OutOfFuel ->
  Backtracking.search_fuel m var_selector h grid =
  Backtracking.search_fuel n var_selector h grid.
Proof.
  revert m. induction n as [|n IH]; intros m Hle h grid Hne; [now elim Hne|].
  destruct m as [|m]; [lia|]. cbn [Backtracking.search_fuel] in *.
  destruct (Store.deref h grid) as [cells| |]; simpl in *; try reflexivity.
  destruct (Grid.is_solved cells) as [[|]| |]; simpl in *; try reflexivity.
  destruct (select_variable var_selector cells) as [[|i j]| |]; simpl in *; try reflexivity.
  destruct (Grid.get cells i j) as [ds| |]; simpl in *; try reflexivity.
  apply search_loop_more; [|exact Hne].
  intros h' l Hne'. apply IH; [lia|exact Hne'].
Qed.

(** C9: consistency ends on every grid and queue: the fuel its definition
    takes is never used up, more fuel gives the same result, and on a grid
    of nine rows of nine domains with a queue of positions of the grid it
    returns (0 or 1).  Search ends in the same way on every grid of nine
    rows of nine domains, for both selectors, and returns (a grid or 0) when
    the domains have one to nine symbols of the alphabet. *)
Theorem search_and_consistency_terminate :
  (forall cells Q,
     AC3.consistency cells Q <> OutOfFuel /\
     (forall fuel, List.length Q + AC3.unassigned cells <= fuel ->
        AC3.consistency_loop fuel cells Q = AC3.consistency cells Q) /\
     (shape9 cells -> Forall in_range Q ->
        exists cells' n, AC3.consistency cells Q = Ret (cells', n) /\ (n = 0 \/ n = 1))) /\
  (forall var_selector h grid cells,
     h !! grid = Some cells -> shape9 cells ->
     Backtracking.search var_selector h grid <> OutOfFuel /\
     (forall fuel, Backtracking.weight cells < fuel ->
        Backtracking.search_fuel fuel var_selector h grid =
        Backtracking.search var_selector h grid) /\
     (wf_grid cells ->
        exists r h', Backtracking.search var_selector h grid = Ret (r, h'))).
Proof.
  split.
  - intros cells Q. split; [apply consistency_not_OutOfFuel|].
    split; [intros fuel; apply consistency_fuel_enough|].
    intros Hs HQ. destruct (consistency_Ret cells Q Hs HQ) as (c' & n & E).
    exists c', n. split; [exact E|]. now destruct (consistency_evolves _ _ _ _ E).
  - intros sel h grid cells Hgrid Hs.
    pose proof (search_refines sel h grid cells Hgrid) as Href.
    pose proof (solution_not_OutOfFuel sel cells Hs) as Hne.
    split; [|split].
    + destruct (solution sel cells) as [[sol|]|e|]; simpl in Href.
      * destruct Href as (l & h' & -> & _). discriminate.
      * destruct Href as (h' & -> & _). discriminate.
      * rewrite Href. discriminate.
      * contradiction.
    + intros fuel Hfuel.
      assert (Hsearch : Backtracking.search sel h grid =
                Backtracking.search_fuel (S (Backtracking.weight cells)) sel h grid).
      { unfold Backtracking.search. now rewrite (store_deref _ _ _ Hgrid). }
      rewrite Hsearch. apply search_fuel_more; [lia|]. rewrite <- Hsearch.
      destruct (solution sel cells) as [[sol|]|e|]; simpl in Href.
      * destruct Href as (l & h' & -> & _). discriminate.
      * destruct Href as (h' & -> & _). discriminate.
      * rewrite Href. discriminate.
      * contradiction.
    + intros Hwf.
      destruct (search_spec_Ret sel (S (Backtracking.weight cells)) cells Hwf) as [r Hr];
        [lia|].
      fold (solution sel cells) in Hr. rewrite Hr in Href.
      destruct r as [sol|]; simpl in Href.
      * destruct Href as (l & h' & -> & _). eauto.
      * destruct Href as (h' & -> & _). eauto.
Qed.

(** ** Assigned peers never share a symbol *)

Lemma pending_nil cells : pending cells [] <-> no_conflict cells.
Proof.
  split.
  - intros H p q c Hp Hq Hcp Hcq.
    destruct (H p q c Hp Hq Hcp Hcq) as [E|E]; now apply elem_of_nil in E.
  - intros H p q c Hp Hq Hcp Hcq. exfalso. eapply H; eassumption.
Qed.

Lemma strip_one c x d : strip c d = String x "" -> Str.len d <= 1 -> d = String x "".
Proof.
  intros E Hlen. destruct d as [|y [|z d]]; simpl in Hlen; try lia.
  - discriminate.
  - rewrite strip_single in E. destruct (Ascii.eqb c y); [discriminate|exact E].
Qed.

Lemma pass_pending cells Q var cells' new :
  shape9 cells -> Forall (assigned cells) (Q ++ [var]) -> pending cells (Q ++ [var]) ->
  pass cells var = Ret (cells', Some new) ->
  pending cells' (Q ++ new).
Proof.
  intros Hs HQ Hpend Hpass.
  pose proof HQ as HQ0. apply Forall_app in HQ0 as [_ Hv].
  inversion Hv as [|? ? Hvar _]; subst.
  destruct (assigned_cell _ _ Hs Hvar) as [c Hc].
  destruct (pass_spec cells var c Hs (proj1 Hvar) Hc)
    as [(c1 & new1 & E & Hts & Hrest & Hnew)|(c1 & E & _)]; [|congruence].
  rewrite Hpass in E. injection E as <- <-.
  assert (Hkept : forall r x, in_range r -> cell cells' r = Some (String x "") ->
            r ∈ new \/ cell cells r = Some (String x "")).
  { intros r x Hr Hx. destruct (decide (r ∈ peers var)) as [Hin|Hout].
    - destruct (proj2 (shape9_cell cells r Hs) Hr) as [d Hd].
      destruct (Hts r d Hin Hd) as [Hne Hd'].
      assert (Hsx : strip c d = String x "") by congruence.
      destruct (decide (1 < Str.len d)) as [Hlt|Hge].
      + left. apply Hnew. split; [exact Hin|]. exists d. rewrite Hsx. auto.
      + right. rewrite Hd. f_equal. apply (strip_one c); [exact Hsx|lia].
    - right. now rewrite <- Hrest. }
  intros p q x Hp Hq Hxp Hxq.
  pose proof (peers_in_range _ _ Hp Hq) as Hqr.
  destruct (Hkept p x Hp Hxp) as [Hpn|Hp0]; [left; apply elem_of_app; now right|].
  destruct (Hkept q x Hqr Hxq) as [Hqn|Hq0]; [right; apply elem_of_app; now right|].
  assert (Hclash : forall t, t ∈ peers var -> cell cells t = Some (String c "") -> False).
  { intros t Ht Hct. destruct (Hts t _ Ht Hct) as [Hne _].
    apply Hne. rewrite strip_single, Ascii.eqb_refl. reflexivity. }
  destruct (Hpend p q x Hp Hq Hp0 Hq0) as [H|H];
    apply elem_of_app in H as [H|H].
  - left. apply elem_of_app. now left.
  - exfalso. apply list_elem_of_singleton in H. subst p.
    assert (x = c) by congruence. subst x. eapply Hclash; eassumption.
  - right. apply elem_of_app. now left.
  - exfalso. apply list_elem_of_singleton in H. subst q.
    assert (x = c) by congruence. subst x.
    apply (Hclash p); [|exact Hp0]. now apply peers_sym.
Qed.

(** A successful propagation from a queue that holds every assigned
    position in doubt leaves no two assigned peers with the same symbol. *)
Lemma consistency_no_conflict cells Q cells' :
  shape9 cells -> Forall (assigned cells) Q -> pending cells Q ->
  AC3.consistency cells Q = Ret (cells', 1) -> no_conflict cells'.
Proof.
  revert cells'. pattern cells, Q, (AC3.consistency cells Q).
  apply consistency_ind; clear cells Q.
  - intros cells cells' _ _ Hpend [= <-]. now apply pending_nil.
  - discriminate.
  - discriminate.
  - intros cells Q var c1 new Hpass IH cells' Hs HQ Hpend Hrun.
    destruct (pass_assigned _ _ _ _ _ Hs HQ Hpass) as [Hs' HQ'].
    apply IH; try assumption.
    exact (pass_pending cells Q var c1 new Hs HQ Hpend Hpass).
Qed.

(** Assigning a symbol puts only the assigned position in doubt. *)
Lemma assign_pending cells i j c clone :
  no_conflict cells ->
  Grid.set (Grid.copy cells) i j (String c "") = Ret clone ->
  pending clone [(i, j)].
Proof.
  rewrite copy_id. intros Hno Hset p q x Hp Hq Hxp Hxq.
  destruct (set_Ret _ _ _ _ _ Hset) as (_ & _ & Hother).
  destruct (decide (p = (i, j))) as [->|Hpne];
    [left; now apply list_elem_of_singleton|].
  destruct (decide (q = (i, j))) as [->|Hqne];
    [right; now apply list_elem_of_singleton|].
  exfalso. rewrite Hother in Hxp, Hxq by assumption. eapply Hno; eassumption.
Qed.

(** ** What the search returns *)

Lemma search_spec_loop_solved rec cells var ds sol :
  (forall clone s, rec clone = Ret (Some s) -> Grid.is_solved s = Ret true) ->
  search_spec_loop rec cells var ds = Ret (Some sol) -> Grid.is_solved sol = Ret true.
Proof.
  intros Hrec. induction ds as [|c ds IH]; [discriminate|].
  cbn [search_spec_loop].
  destruct (Backtracking.isConsistent cells var (String c "")) as [[|]| |]; simpl;
    try discriminate; [|exact IH].
  destruct (Grid.set (Grid.copy cells) var.1 var.2 (String c "")) as [c1| |]; simpl;
    try discriminate.
  destruct (AC3.consistency c1 [(var.1, var.2)]) as [[c2 n]| |]; simpl; try discriminate.
  destruct (n =? 0); [exact IH|].
  destruct (rec c2) as [[s|]| |] eqn:E; simpl; try discriminate; [|exact IH].
  intros [= <-]. eapply Hrec; eassumption.
Qed.

Lemma search_spec_solved fuel var_selector cells sol :
  search_spec fuel var_selector cells = Ret (Some sol) -> Grid.is_solved sol = Ret true.
Proof.
  revert cells sol. induction fuel as [|fuel IH]; intros cells sol; [discriminate|].
  cbn [search_spec].
  destruct (Grid.is_solved cells) as [[|]| |] eqn:Hsolved; simpl; try discriminate.
  - now intros [= <-].
  - destruct (select_variable var_selector cells) as [[|i j]| |]; simpl; try discriminate.
    destruct (Grid.get cells i j) as [ds| |]; simpl; try discriminate.
    apply search_spec_loop_solved. intros clone s. apply IH.
Qed.

Lemma search_spec_loop_no_conflict rec cells var ds sol :
  wf_grid cells -> no_conflict cells -> in_range var ->
  Forall (fun c => In c alphabet) (chars ds) ->
  (forall clone s, wf_grid clone -> no_conflict clone -> rec clone = Ret (Some s) ->
     wf_grid s /\ no_conflict s) ->
  search_spec_loop rec cells var ds = Ret (Some sol) -> wf_grid sol /\ no_conflict sol.
Proof.
  intros Hwf Hno Hv Hds Hrec. induction ds as [|c ds IH]; [discriminate|].
  inversion Hds as [|? ? Hc Hds']; subst. specialize (IH Hds').
  cbn [search_spec_loop].
  destruct (Backtracking.isConsistent cells var (String c "")) as [[|]| |]; simpl;
    try discriminate; [|exact IH].
  destruct (Grid.set (Grid.copy cells) var.1 var.2 (String c "")) as [c1| |] eqn:Hset;
    simpl; try discriminate.
  destruct (AC3.consistency c1 [(var.1, var.2)]) as [[c2 n]| |] eqn:Hrun; simpl;
    try discriminate.
  destruct (Nat.eqb_spec n 0) as [Hn|Hn]; [exact IH|].
  destruct (consistency_evolves _ _ _ _ Hrun) as [Hev [->| ->]]; [contradiction|].
  assert (Hwf1 : wf_grid c1).
  { eapply set_wf; [exact Hset| |now rewrite copy_id].
    split; [simpl; lia|]. constructor; [exact Hc|constructor]. }
  assert (Hno2 : no_conflict c2).
  { apply (consistency_no_conflict c1 [(var.1, var.2)] c2 (wf_grid_shape9 _ Hwf1));
      [| |exact Hrun].
    - constructor; [|constructor]. split; [now destruct var|].
      destruct (set_Ret _ _ _ _ _ Hset) as (_ & Hnew & _).
      now rewrite (cell_domain _ _ _ Hnew).
    - eapply assign_pending; eassumption. }
  destruct (rec c2) as [[s|]| |] eqn:E; simpl; try discriminate; [|exact IH].
  intros [= <-]. eapply Hrec; [| |exact E]; [eapply evolves_wf; eassumption|exact Hno2].
Qed.

Lemma search_spec_no_conflict fuel var_selector cells sol :
  wf_grid cells -> no_conflict cells ->
  search_spec fuel var_selector cells = Ret (Some sol) -> wf_grid sol /\ no_conflict sol.
Proof.
  revert cells sol. induction fuel as [|fuel IH]; intros cells sol Hwf Hno; [discriminate|].
  cbn [search_spec].
  destruct (Grid.is_solved cells) as [[|]| |] eqn:Hsolved; simpl; try discriminate.
  - intros [= <-]. auto.
  - destruct (select_variable var_selector cells) as [[|i j]| |]; simpl; try discriminate.
    destruct (Grid.get cells i j) as [ds| |] eqn:Hget; simpl; try discriminate.
    apply get_Ret in Hget.
    apply (search_spec_loop_no_conflict _ cells (i, j) ds sol Hwf Hno).
    + apply (shape9_cell cells); [now apply wf_grid_shape9|eauto].
    + now destruct (wf_grid_cell _ _ _ Hwf Hget).
    + intros clone s Hwfc Hnoc. now apply IH.
Qed.

(** ** Solved grids *)

#[local] Instance in_range_dec p : Decision (in_range p).
Proof. unfold in_range. apply _. Defined.

Lemma units_peers :
  Forall (fun unit =>
            NoDup unit /\ List.length unit = 9 /\ Forall in_range unit /\
            Forall (fun p => Forall (fun q => p = q \/ q ∈ peers p) unit) unit) units.
Proof. apply (bool_decide_unpack _). vm_compute. exact I. Qed.

Lemma symbols_once s : s ∈ symbols -> count_occ string_dec symbols s = 1.
Proof.
  intros Hs. apply list_elem_of_In in Hs. simpl in Hs.
  repeat (destruct Hs as [<-|Hs]; [reflexivity|]). contradiction.
Qed.

Lemma complete_cell cells p :
  shape9 cells -> complete cells -> in_range p ->
  exists c, cell cells p = Some (String c "") /\ domain cells p = String c "".
Proof.
  intros Hs Hc Hp. destruct (assigned_cell cells p Hs (conj Hp (Hc p Hp))) as [c Hcell].
  exists c. split; [exact Hcell|]. now apply cell_domain.
Qed.

Lemma no_conflict_solved cells :
  wf_grid cells -> complete cells -> no_conflict cells -> solved_sudoku cells.
Proof.
  intros Hwf Hc Hno. pose proof (wf_grid_shape9 _ Hwf) as Hs.
  split; [exact Hs|]. split; [exact Hc|].
  intros unit Hunit s Hsym.
  pose proof units_peers as Hall. rewrite Forall_forall in Hall.
  destruct (Hall unit Hunit) as (Hnd & Hlen & Hrange & Hpeers).
  rewrite Forall_forall in Hrange, Hpeers.
  assert (Hperm : map (domain cells) unit ≡ₚ symbols).
  { apply submseteq_length_Permutation; [|rewrite length_map, Hlen; reflexivity].
    apply NoDup_submseteq.
    - apply NoDup_fmap_2_strong; [|exact Hnd].
      intros p q Hp Hq Heq.
      specialize (Hpeers p Hp). rewrite Forall_forall in Hpeers.
      destruct (Hpeers q Hq) as [E|Hpq]; [exact E|]. exfalso.
      destruct (complete_cell cells p Hs Hc (Hrange p Hp)) as (x & Hxp & Hdp).
      destruct (complete_cell cells q Hs Hc (Hrange q Hq)) as (y & Hyq & Hdq).
      assert (x = y) by congruence. subst y.
      exact (Hno p q x (Hrange p Hp) Hpq Hxp Hyq).
    - intros d Hd. apply list_elem_of_fmap in Hd as (p & -> & Hp).
      destruct (complete_cell cells p Hs Hc (Hrange p Hp)) as (x & Hxp & ->).
      destruct (wf_grid_cell _ _ _ Hwf Hxp) as [_ Hal].
      inversion Hal as [|? ? Hx _]; subst.
      unfold symbols. apply list_elem_of_fmap. exists x. split; [reflexivity|].
      now apply list_elem_of_In. }
  unfold occurrences.
  rewrite (proj1 (Permutation_count_occ string_dec _ _) Hperm s).
  now apply symbols_once.
Qed.

Lemma is_solved_loop_true cells ps :
  Grid.is_solved_loop cells ps = Ret true ->
  Forall (fun p => exists d, cell cells p = Some d /\ Str.len d = 1) ps.
Proof.
  induction ps as [|[i j] ps IH]; [constructor|].
  cbn [Grid.is_solved_loop]. rewrite get_cell.
  destruct (cell cells (i, j)) as [d|] eqn:Hd; simpl; [|discriminate].
  destruct (Nat.eqb_spec (Str.len d) 1) as [E|E]; simpl; [|discriminate].
  intros H. constructor; [eauto|now apply IH].
Qed.

Lemma is_solved_true cells :
  Grid.is_solved cells = Ret true ->
  forall p, in_range p -> exists d, cell cells p = Some d /\ Str.len d = 1.
Proof.
  intros H p Hp. apply is_solved_loop_true in H. rewrite Forall_forall in H.
  apply H. now apply in_range_positions.
Qed.

Lemma is_solved_complete cells : Grid.is_solved cells = Ret true -> complete cells.
Proof.
  intros H p Hp. destruct (is_solved_true cells H p Hp) as (d & Hd & Hlen).
  now rewrite (cell_domain _ _ _ Hd).
Qed.

Lemma clash_solution_not_solved : ~ solved_sudoku clash_solution.
Proof.
  intros (_ & _ & H).
  assert (Hu : row_unit 0 ∈ units) by (apply list_elem_of_In; vm_compute; tauto).
  assert (Hs : "5" ∈ symbols) by (apply list_elem_of_In; vm_compute; tauto).
  specialize (H _ Hu _ Hs). vm_compute in H. discriminate.
Qed.

(** C1, as stated, fails: the puzzle has the symbol 5 twice in row 0 and one
    free cell; after the pre-processing the search returns a grid in which
    every domain has one symbol but row 0 holds 5 twice and 3 never. *)
Lemma search_returns_a_grid_with_a_repeated_symbol :
  exists cells l h',
    AC3.pre_process_consistency clash_grid = Ret cells /\
    Backtracking.search FirstAvailable [cells] 0 = Ret (Found l, h') /\
    h' !! l = Some clash_solution /\
    occurrences clash_solution (row_unit 0) "5" = 2 /\
    occurrences clash_solution (row_unit 0) "3" = 0 /\
    ~ solved_sudoku clash_solution.
Proof.
  eexists _, _, _. split; [vm_compute; reflexivity|].
  split; [vm_compute; reflexivity|]. split; [reflexivity|].
  split; [reflexivity|]. split; [reflexivity|]. exact clash_solution_not_solved.
Qed.

(** C1, amended: every grid search returns as a solution has 81 domains of
    exactly one symbol; and when the grid search was given has nine rows of
    nine domains of one to nine symbols of the alphabet, with no two
    assigned cells of one unit holding the same symbol, every row, column
    and box of the returned grid holds each of the nine symbols exactly
    once. *)
Theorem search_returns_a_solved_grid (var_selector : VarSelector) (h : heap)
    (grid : loc) (cells : Cells) (l : loc) (h' : heap) :
  h !! grid = Some cells ->
  Backtracking.search var_selector h grid = Ret (Found l, h') ->
  exists sol,
    h' !! l = Some sol /\
    Grid.is_solved sol = Ret true /\
    (forall p, in_range p -> exists d, cell sol p = Some d /\ Str.len d = 1) /\
    (wf_grid cells -> no_conflict cells -> solved_sudoku sol).
Proof.
  intros Hgrid Hrun.
  destruct (search_Ret_inv _ _ _ _ _ _ Hgrid Hrun) as [_ (sol & Hl & Hsol)].
  exists sol. split; [exact Hl|].
  pose proof (search_spec_solved _ _ _ _ Hsol) as Hsolved.
  split; [exact Hsolved|]. split; [now apply is_solved_true|].
  intros Hwf Hno.
  destruct (search_spec_no_conflict _ _ _ _ Hwf Hno Hsol) as [Hwf' Hno'].
  apply no_conflict_solved; [exact Hwf'| |exact Hno'].
  now apply is_solved_complete.
Qed.

Lemma search_returns_a_solved_grid_witness :
  exists l h' sol,
    [easy_grid] !! 0 = Some easy_grid /\
    Backtracking.search MRV [easy_grid] 0 = Ret (Found l, h') /\
    h' !! l = Some sol /\ Grid.is_solved sol = Ret true.
Proof.
  assert (Hrun : exists l h', Backtracking.search MRV [easy_grid] 0 = Ret (Found l, h')).
  { eexists _, _. vm_compute. reflexivity. }
  destruct Hrun as (l & h' & Hrun).
  destruct (search_returns_a_solved_grid MRV [easy_grid] 0 easy_grid l h' eq_refl Hrun)
    as (sol & Hl & Hsolved & _).
  exists l, h', sol. repeat split; assumption.
Defined.

(** C3 fails on the code: the puzzle has the symbol 5 twice in row 0.  The
    propagation of the pre-processing returns 0, pre_process_consistency
    drops that result, and the pipeline returns a grid, with 5 twice in
    row 0, instead of 0. *)
Theorem solve_returns_a_grid_on_clashing_clues :
  well_formed_puzzle clash_puzzle /\
  domain clash_grid (0, 0) = "5" /\
  domain clash_grid (0, 1) = "5" /\
  (exists Q cells',
     AC3.pre_process_queue clash_grid positions [] = Ret Q /\
     AC3.consistency clash_grid Q = Ret (cells', 0)) /\
  forall curr_selector,
    exists l h',
      solve curr_selector clash_puzzle = Ret (Found l, h') /\
      h' !! l = Some clash_solution /\
      domain clash_solution (0, 0) = "5" /\ domain clash_solution (0, 1) = "5".
Proof.
  split; [apply well_formed_puzzleb_spec; reflexivity|].
  split; [reflexivity|]. split; [reflexivity|]. split.
  - eexists _, _. split; vm_compute; reflexivity.
  - intros [|]; eexists _, _; (split; [vm_compute; reflexivity|]);
      repeat split; reflexivity.
Qed.

(** ** The order in which the search tries the symbols *)


Lemma search_Zero_iff var_selector h grid cells :
  h !! grid = Some cells ->
  (exists h', Backtracking.search var_selector h grid = Ret (Zero, h')) <->
  solution var_selector cells = Ret None.
Proof.
  intros Hgrid. split.
  - intros (h' & Hrun). now destruct (search_Ret_inv _ _ _ _ _ _ Hgrid Hrun).
  - intros Hsol. pose proof (search_refines var_selector h grid cells Hgrid) as Href.
    rewrite Hsol in Href. destruct Href as (h' & E & _). eauto.
Qed.

Lemma search_fuel_search var_selector h grid cells fuel :
  h !! grid = Some cells -> shape9 cells -> Backtracking.weight cells < fuel ->
  Backtracking.search_fuel fuel var_selector h grid =
  Backtracking.search var_selector h grid.
Proof.
  intros Hgrid Hs Hw.
  pose proof (search_refines var_selector h grid cells Hgrid) as Href.
  pose proof (solution_not_OutOfFuel var_selector cells Hs) as Hne.
  assert (Hsearch : Backtracking.search var_selector h grid =
            Backtracking.search_fuel (S (Backtracking.weight cells)) var_selector h grid).
  { unfold Backtracking.search. now rewrite (store_deref _ _ _ Hgrid). }
  rewrite Hsearch. apply search_fuel_more; [lia|]. rewrite <- Hsearch.
  destruct (solution var_selector cells) as [[sol|]|e|]; simpl in Href.
  - destruct Href as (l & h' & -> & _). discriminate.
  - destruct Href as (h' & -> & _). discriminate.
  - rewrite Href. discriminate.
  - contradiction.
Qed.

(** An attempt only adds grids to the store. *)
Lemma attempt_prefix var_selector h grid cells var c r h1 :
  h !! grid = Some cells ->
  attempt var_selector grid var c h = Ret (r, h1) -> h `prefix_of` h1.
Proof.
  intros Hgrid. unfold attempt. rewrite (store_deref _ _ _ Hgrid). simpl.
  destruct (Backtracking.isConsistent cells var (String c "")) as [[|]| |]; simpl;
    try discriminate; [|now intros [= _ <-]].
  rewrite (store_copy _ _ _ Hgrid). simpl. rewrite store_assign.
  destruct (Grid.set (Grid.copy cells) var.1 var.2 (String c "")) as [c1| |]; simpl;
    try discriminate.
  rewrite store_consistency.
  destruct (AC3.consistency c1 [(var.1, var.2)]) as [[c2 n]| |]; simpl;
    try discriminate.
  assert (Hp : h `prefix_of` h ++ [c2]) by (now apply prefix_app_r).
  destruct (n =? 0); [now intros [= _ <-]|].
  intros Hrun.
  assert (Hc2 : (h ++ [c2]) !! List.length h = Some c2) by (now apply list_lookup_middle).
  destruct (search_Ret_inv _ _ _ _ _ _ Hc2 Hrun) as [Hp' _].
  etransitivity; eassumption.
Qed.

(** The loop of [search] at the first symbol: one attempt, and the rest of
    the loop only when the attempt fails. *)
Lemma search_loop_step var_selector n grid var cells c ds h :
  h !! grid = Some cells -> shape9 cells -> in_range var ->
  1 < Str.len (domain cells var) -> Backtracking.weight cells <= n ->
  Backtracking.search_loop (Backtracking.search_fuel n var_selector) grid var
    (String c ds) h =
  '(r, h1) ← attempt var_selector grid var c h;
  match r with
  | Found l => Ret (Found l, h1)
  | Zero => Backtracking.search_loop (Backtracking.search_fuel n var_selector)
              grid var ds h1
  end.
Proof.
  intros Hgrid Hs Hv Hlen Hn. cbn [Backtracking.search_loop]. unfold attempt.
  rewrite (store_deref _ _ _ Hgrid). simpl.
  destruct (Backtracking.isConsistent cells var (String c "")) as [[|]| |]; simpl;
    try reflexivity.
  rewrite (store_copy _ _ _ Hgrid). simpl. rewrite store_assign.
  destruct (Grid.set (Grid.copy cells) var.1 var.2 (String c "")) as [c1| |] eqn:Hset;
    simpl; try reflexivity.
  rewrite store_consistency.
  destruct (AC3.consistency c1 [(var.1, var.2)]) as [[c2 k]| |] eqn:Hrun; simpl;
    try reflexivity.
  destruct (k =? 0); [reflexivity|].
  destruct (consistency_evolves _ _ _ _ Hrun) as [Hev _].
  assert (Hs1 : shape9 c1).
  { eapply set_shape9; [exact Hset|]. now rewrite copy_id. }
  assert (Hw : Backtracking.weight c2 < n).
  { pose proof (weight_evolves _ _ Hev).
    assert (Backtracking.weight c1 < Backtracking.weight cells); [|lia].
    eapply assign_lighter; [|exact Hset]. now destruct var. }
  assert (Hc2 : (h ++ [c2]) !! List.length h = Some c2) by (now apply list_lookup_middle).
  rewrite (search_fuel_search var_selector _ _ c2 n Hc2 (evolves_shape9 _ _ Hev Hs1) Hw).
  destruct (Backtracking.search var_selector (h ++ [c2]) (List.length h))
    as [[[l|] h1]| |]; reflexivity.
Qed.

(** The loop returns the grid of the first attempt that yields one, from the
    store the failed attempts before it have left, and 0 when every attempt
    has failed. *)
Lemma search_loop_first var_selector n grid var cells :
  shape9 cells -> in_range var ->
  1 < Str.len (domain cells var) -> Backtracking.weight cells <= n ->
  forall ds h, h !! grid = Some cells ->
  (forall l h',
     Backtracking.search_loop (Backtracking.search_fuel n var_selector) grid var ds h
     = Ret (Found l, h') <->
     exists before c after h1,
       chars ds = before ++ c :: after /\
       all_fail var_selector grid var h before h1 /\
       attempt var_selector grid var c h1 = Ret (Found l, h')) /\
  (forall h',
     Backtracking.search_loop (Backtracking.search_fuel n var_selector) grid var ds h
     = Ret (Zero, h') <->
     all_fail var_selector grid var h (chars ds) h').
Proof.
  intros Hs Hv Hlen Hn. induction ds as [|c ds IH]; intros h Hgrid.
  - split.
    + intros l h'. split; [discriminate|].
      intros (before & c & after & h1 & E & _). now destruct before.
    + intros h'. simpl. split.
      * intros [= <-]. constructor.
      * intros H. inversion H. reflexivity.
  - rewrite (search_loop_step var_selector n grid var cells c ds h Hgrid Hs Hv Hlen Hn).
    cbn [chars list_ascii_of_string]. fold (chars ds).
    destruct (attempt var_selector grid var c h) as [[[l0|] h0]|e|] eqn:Ha; simpl.
    + split.
      * intros l h'. split.
        -- intros [= <- <-]. exists [], c, (chars ds), h.
           split; [reflexivity|]. split; [constructor|exact Ha].
        -- intros ([|x before] & c' & after & h1 & E & Hb & Hc'); simpl in E.
           ++ injection E as <- _. inversion Hb; subst. congruence.
           ++ injection E as <- _. inversion Hb; subst. congruence.
      * intros h'. split; [discriminate|]. intros H. inversion H; subst. congruence.
    + assert (Hgrid0 : h0 !! grid = Some cells).
      { eapply prefix_lookup_Some; [exact Hgrid|].
        eapply attempt_prefix; eassumption. }
      destruct (IH h0 Hgrid0) as [IH1 IH2]. split.
      * intros l h'. rewrite IH1. split.
        -- intros (before & c' & after & h1 & E & Hb & Hc').
           exists (c :: before), c', after, h1. rewrite E.
           split; [reflexivity|]. split; [econstructor; eassumption|exact Hc'].
        -- intros ([|x before] & c' & after & h1 & E & Hb & Hc'); simpl in E.
           ++ injection E as <- _. inversion Hb; subst. congruence.
           ++ injection E as <- E. inversion Hb as [|? ? h2 ? ? Hx Hrest]; subst.
              assert (h2 = h0) by congruence. subst h2.
              exists before, c', after, h1. auto.
      * intros h'. rewrite IH2. split.
        -- intros H. econstructor; eassumption.
        -- intros H. inversion H as [|? ? h2 ? ? Hx Hrest]; subst.
           assert (h2 = h0) by congruence. now subst h2.
    + split.
      * intros l h'. split; [discriminate|].
        intros ([|x before] & c' & after & h1 & E & Hb & Hc'); simpl in E.
        -- injection E as <- _. inversion Hb; subst. congruence.
        -- injection E as <- _. inversion Hb; subst. congruence.
      * intros h'. split; [discriminate|]. intros H. inversion H; subst. congruence.
    + split.
      * intros l h'. split; [discriminate|].
        intros ([|x before] & c' & after & h1 & E & Hb & Hc'); simpl in E.
        -- injection E as <- _. inversion Hb; subst. congruence.
        -- injection E as <- _. inversion Hb; subst. congruence.
      * intros h'. split; [discriminate|]. intros H. inversion H; subst. congruence.
Qed.

(** On a grid of domains of one to nine symbols that is not complete, both
    selectors return a position of the grid whose domain has several
    symbols. *)
Lemma select_variable_open var_selector cells :
  wf_grid cells -> ~ complete cells ->
  exists p, in_range p /\ 1 < Str.len (domain cells p) /\
    select_variable var_selector cells = Ret (PyTuple p.1 p.2).
Proof.
  intros Hwf Hnc. destruct var_selector; simpl.
  - destruct (first_available_spec cells Hwf) as [[Hc _]|(p & Hp & Hl & Hsel & _)];
      [contradiction|eauto].
  - destruct (mrv_spec cells Hwf) as [[Hc _]|(p & Hp & Hl & Hsel & _)];
      [contradiction|eauto].
Qed.

(** C6: given a complete grid, search returns that very grid and leaves the
    store as it was, so no clone was made and nothing was tried.  Otherwise,
    on a grid of nine rows of nine domains of one to nine symbols, search
    returns, and with [ds] the domain of the cell the selector returns: it
    returns a grid and a store exactly when, for some symbol [c] of [ds],
    the symbols before [c] in [ds], tried in this order from the store on
    entry, all fail, and the attempt of [c] from the store they leave yields
    that grid and that store; so the store returned is the store of the
    first successful attempt, no symbol after [c] is tried, and what trying
    them would do does not matter.  And search returns 0 and a store exactly
    when all the symbols of [ds], tried in order, fail and leave that
    store. *)
Theorem search_returns_the_first_solution (var_selector : VarSelector) (h : heap)
    (grid : loc) (cells : Cells) :
  h !! grid = Some cells ->
  (Grid.is_solved cells = Ret true ->
   Backtracking.search var_selector h grid = Ret (Found grid, h)) /\
  (shape9 cells -> complete cells ->
   Backtracking.search var_selector h grid = Ret (Found grid, h)) /\
  (wf_grid cells -> ~ complete cells ->
   exists i j,
     select_variable var_selector cells = Ret (PyTuple i j) /\
     in_range (i, j) /\ 1 < Str.len (domain cells (i, j)) /\
     (exists r h', Backtracking.search var_selector h grid = Ret (r, h')) /\
     (forall l h',
        Backtracking.search var_selector h grid = Ret (Found l, h') <->
        exists before c after h1,
          chars (domain cells (i, j)) = before ++ c :: after /\
          all_fail var_selector grid (i, j) h before h1 /\
          attempt var_selector grid (i, j) c h1 = Ret (Found l, h')) /\
     (forall h',
        Backtracking.search var_selector h grid = Ret (Zero, h') <->
        all_fail var_selector grid (i, j) h (chars (domain cells (i, j))) h')).
Proof.
  intros Hgrid.
  assert (Hdone : Grid.is_solved cells = Ret true ->
                  Backtracking.search var_selector h grid = Ret (Found grid, h)).
  { intros Hsolved. unfold Backtracking.search. rewrite (store_deref _ _ _ Hgrid).
    cbn [mbind result_bind Backtracking.search_fuel].
    rewrite (store_deref _ _ _ Hgrid). cbn [mbind result_bind].
    now rewrite Hsolved. }
  split; [exact Hdone|]. split.
  - intros Hs Hc. apply Hdone.
    destruct (is_solved_spec cells Hs) as (b & Hb & Hiff).
    rewrite Hb. f_equal. now apply Hiff.
  - intros Hwf Hnc. pose proof (wf_grid_shape9 _ Hwf) as Hs.
    destruct (select_variable_open var_selector cells Hwf Hnc) as (p & Hp & Hlen & Hsel).
    exists p.1, p.2. rewrite <- surjective_pairing.
    split; [exact Hsel|]. split; [exact Hp|]. split; [exact Hlen|].
    assert (Hsearch : Backtracking.search var_selector h grid =
              Backtracking.search_loop
                (Backtracking.search_fuel (Backtracking.weight cells) var_selector)
                grid p (domain cells p) h).
    { unfold Backtracking.search. rewrite (store_deref _ _ _ Hgrid).
      cbn [mbind result_bind Backtracking.search_fuel].
      rewrite (store_deref _ _ _ Hgrid). cbn [mbind result_bind].
      destruct (is_solved_spec cells Hs) as (b & Hb & Hiff).
      assert (b = false) by (destruct b; [exfalso; now apply Hnc, Hiff|reflexivity]).
      subst b. rewrite Hb. cbn [mbind result_bind]. rewrite Hsel. cbn [mbind result_bind].
      destruct p as [i j]. cbn [fst snd].
      rewrite (get_domain cells i j Hs Hp). reflexivity. }
    split.
    + destruct (search_spec_Ret var_selector (S (Backtracking.weight cells)) cells Hwf)
        as [r Hr]; [lia|].
      fold (solution var_selector cells) in Hr.
      pose proof (search_refines var_selector h grid cells Hgrid) as Href.
      rewrite Hr in Href. destruct r as [sol|]; simpl in Href.
      * destruct Href as (l & h' & -> & _). eauto.
      * destruct Href as (h' & -> & _). eauto.
    + rewrite Hsearch.
      apply (search_loop_first var_selector (Backtracking.weight cells) grid p cells
               Hs Hp Hlen (le_n _) (domain cells p) h Hgrid).
Qed.

Lemma search_returns_the_first_solution_witness :
  Backtracking.search MRV [solved_grid] 0 = Ret (Found 0, [solved_grid]) /\
  wf_grid easy_grid /\ ~ complete easy_grid /\
  exists i j l h' before c after h1,
    select_variable MRV easy_grid = Ret (PyTuple i j) /\
    Backtracking.search MRV [easy_grid] 0 = Ret (Found l, h') /\
    chars (domain easy_grid (i, j)) = before ++ c :: after /\
    all_fail MRV 0 (i, j) [easy_grid] before h1 /\
    attempt MRV 0 (i, j) c h1 = Ret (Found l, h').
Proof.
  assert (Hnc : ~ complete easy_grid).
  { intros Hc%completeb_spec. vm_compute in Hc. discriminate. }
  split.
  - assert (Hsolved : Grid.is_solved solved_grid = Ret true) by (vm_compute; reflexivity).
    exact (proj1 (search_returns_the_first_solution MRV [solved_grid] 0 solved_grid
                    eq_refl) Hsolved).
  - split; [exact wf_easy_grid|]. split; [exact Hnc|].
    destruct (proj2 (proj2 (search_returns_the_first_solution MRV [easy_grid] 0 easy_grid
                              eq_refl)) wf_easy_grid Hnc)
      as (i & j & Hsel & _ & _ & _ & Hfound & _).
    assert (Hrun : exists l h',
               Backtracking.search MRV [easy_grid] 0 = Ret (Found l, h')).
    { eexists _, _. vm_compute. reflexivity. }
    destruct Hrun as (l & h' & Hrun).
    destruct (proj1 (Hfound l h') Hrun) as (before & c & after & h1 & E & Hb & Hc).
    exists i, j, l, h', before, c, after, h1. auto.
Defined.

Lemma shape9_easy_grid : shape9 easy_grid.
Proof. exact (wf_grid_shape9 _ wf_easy_grid). Qed.

Lemma search_and_consistency_terminate_witness :
  [easy_grid] !! 0 = Some easy_grid /\ shape9 easy_grid /\
  Backtracking.search MRV [easy_grid] 0 <> OutOfFuel /\
  AC3.consistency easy_grid [(0, 0)] <> OutOfFuel.
Proof.
  split; [reflexivity|]. split; [exact shape9_easy_grid|]. split.
  - apply (proj2 search_and_consistency_terminate MRV [easy_grid] 0 easy_grid
             eq_refl shape9_easy_grid).
  - apply (proj1 search_and_consistency_terminate easy_grid [(0, 0)]).
Defined.

(** ** The pre-processing and the pipeline *)








(** ** The local consistency check *)






(** ** Arc consistency *)


Lemma arc_consistent_no_conflict cells : arc_consistent cells -> no_conflict cells.
Proof.
  intros H p q c Hp Hq Hcp Hcq. apply (H p c Hp Hcp q Hq).
  rewrite (cell_domain _ _ _ Hcq). now left.
Qed.







(** ** Solutions of a grid *)


#[local] Instance string_eq_dec : EqDecision string := string_dec.








(** ** The search is complete *)



(** ** The search only narrows the domains *)





(** ** Further properties of the engine *)

















(** ** Arc consistency, fixed points and the pipeline *)























(** ** Soundness and completeness of the search and of the pipeline *)














(** ** The grid: is_solved and read_file on any grid *)






(** ** Printing the grid *)






















